(** * termul: the asynchronous probe engine of [termul.py]

    The module keeps four globals ([findings], [critical_count],
    [stop_scan], [logic_graph]) that every check coroutine reads and
    writes.  The coroutines run on one asyncio event loop, so a
    coroutine runs without interruption from one [await] to the next.
    The development below embeds
    - the globals as a record and [add_finding] / [correlate] as
      functions on it,
    - [fetch] in a small error monad over the log of requests put on
      the wire,
    - the check coroutines as resumptions whose nodes are the [await]
      points and the accesses to the globals,
    - [asyncio.gather] as a step function that resumes one suspended
      task at a time, in any order. *)

From Stdlib Require Import QArith.
From stdpp Require Import gmap strings list fin_maps pretty.

Open Scope string_scope.
Open Scope list_scope.

(** ** Configuration *)

Definition MAX_CONCURRENCY : Z := 10.
Definition TIMEOUT : Z := 5.
Definition CRITICAL_STOP_THRESHOLD : Z := 2.
Definition WAF_DELAY : Q := (3 # 2)%Q.
Definition WAF_STATUS : list Z := [429; 403]%Z.

(** ** Global state *)

(** A finding is the dict [{"type": .., "endpoint": .., "risk": ..}]. *)
Record finding := Finding {
  type : string;
  endpoint : string;
  risk : string
}.

Record globals := Globals {
  findings : list finding;
  critical_count : Z;
  stop_scan : bool;
  logic_graph : gmap string (list string)
}.

(** The values the module assigns at import time. *)
Definition initial_globals : globals :=
  {| findings := [];
     critical_count := 0;
     stop_scan := false;
     logic_graph := ∅ |}.

Definition add_finding (f : finding) (g : globals) : globals :=
  let findings' := findings g ++ [f] in
  let critical_count' :=
    if String.eqb (risk f) "CRITICAL"
    then (critical_count g + 1)%Z
    else critical_count g in
  let stop_scan' :=
    if (CRITICAL_STOP_THRESHOLD <=? critical_count')%Z
    then true
    else stop_scan g in
  {| findings := findings';
     critical_count := critical_count';
     stop_scan := stop_scan';
     logic_graph := logic_graph g |}.

(** [logic_graph] is a [defaultdict(list)]: a missing key reads as the
    empty list and is created by the append. *)
Definition correlate (source target : string) (g : globals) : globals :=
  {| findings := findings g;
     critical_count := critical_count g;
     stop_scan := stop_scan g;
     logic_graph :=
       <[source := default [] (logic_graph g !! source) ++ [target]]>
         (logic_graph g) |}.

(** The states reached by recording findings one after the other. *)
Definition record_all (fs : list finding) : globals :=
  foldl (fun g f => add_finding f g) initial_globals fs.

Definition count_critical (fs : list finding) : nat :=
  length (filter (fun f => risk f = "CRITICAL") fs).

Definition count_type (t : string) (fs : list finding) : nat :=
  length (filter (fun f => type f = t) fs).

(** ** The network boundary *)

Definition dict := list (string * string).

Record request := Request {
  method : string;
  url : string;
  headers : option dict;
  json : option dict
}.

Inductive exn :=
  | TransportError
  | TimeoutError
  | ProtocolError
  | OtherError (name : string).

Inductive result (A : Type) :=
  | Ok (a : A)
  | Raise (e : exn).
Arguments Ok {A} a.
Arguments Raise {A} e.

(** What [session.request] hands back: the status line, and the body
    that [r.text()] reads (which may itself raise). *)
Record response := Response {
  status : Z;
  text : result string
}.

(** The behaviour of the session for a request under a timeout. *)
Definition session := request -> Z -> result response.

(** Computations that may raise and that put requests on the wire. *)
Definition Net (A : Type) : Type := list request -> result A * list request.

Definition net_ret {A} (a : A) : Net A := fun wire => (Ok a, wire).

Definition net_bind {A B} (m : Net A) (k : A -> Net B) : Net B :=
  fun wire =>
    match m wire with
    | (Ok a, wire') => k a wire'
    | (Raise e, wire') => (Raise e, wire')
    end.

Notation "x <~ m ;; k" := (net_bind m (fun x => k))
  (at level 100, m at next level, right associativity).

Definition session_request (s : session) (req : request) (timeout : Z)
  : Net response :=
  fun wire => (s req timeout, wire ++ [req]).

Definition read_text (r : response) : Net string :=
  fun wire => (text r, wire).

(** [try: body except: return handler] with a bare [except]. *)
Definition try_except {A} (body : Net A) (handler : A)
  : list request -> A * list request :=
  fun wire =>
    match body wire with
    | (Ok a, wire') => (a, wire')
    | (Raise _, wire') => (handler, wire')
    end.

Definition outcome : Type := option Z * option string.

Definition fetch (s : session) (req : request)
  : list request -> outcome * list request :=
  try_except
    (r <~ session_request s req TIMEOUT ;;
     let status := status r in
     text <~ read_text r ;;
     net_ret (Some status, Some text))
    (None, None).

(** The pair a caller of [fetch] gets. *)
Definition fetched (s : session) (req : request) : outcome :=
  fst (fetch s req []).

(** [status == 200], where [status] may be [None]. *)
Definition is_200 (o : outcome) : bool :=
  match fst o with
  | Some st => (st =? 200)%Z
  | None => false
  end.

(** ** Coroutines *)

(** A coroutine body is a tree of its [await] points and of its
    accesses to the globals. *)
Inductive coro :=
  | Return
  | Await_sleep (delay : Q) (k : coro)
  | Await_fetch (req : request) (k : outcome -> coro)
  | If_stop_scan (kthen kelse : coro)
  | Add_finding (f : finding) (k : coro)
  | Correlate (source target : string) (k : coro).

Definition check_exposed_route (url : string) : coro :=
  If_stop_scan Return
    (Await_fetch (Request "GET" url None None) (fun o =>
       if is_200 o
       then Add_finding (Finding "EXPOSED_ROUTE" url "HIGH") Return
       else Return)).

Definition check_missing_auth (url : string) : coro :=
  If_stop_scan Return
    (Await_fetch (Request "GET" url None None) (fun o =>
       if is_200 o
       then Add_finding (Finding "MISSING_AUTH" url "CRITICAL") Return
       else Return)).

Definition bearer (token : string) : dict :=
  [("Authorization", "Bearer " +:+ token)].

(** The body of the [for i in ...] loop of [check_idor], over the ids
    still to visit. *)
Fixpoint idor_loop (base : string) (hdrs : dict) (ids : list nat) : coro :=
  match ids with
  | [] => Return
  | i :: rest =>
      If_stop_scan Return
        (let url := base +:+ "?id=" +:+ pretty i in
         Await_fetch (Request "GET" url (Some hdrs) None) (fun o =>
           if is_200 o
           then Add_finding (Finding "IDOR" url "CRITICAL")
                  (Correlate "IDOR" "DATA_DISCLOSURE"
                     (idor_loop base hdrs rest))
           else idor_loop base hdrs rest))
  end.

Definition check_idor (base token : string) : coro :=
  let headers := bearer token in
  idor_loop base headers (seq 1 5).

Definition check_privilege (url token : string) : coro :=
  If_stop_scan Return
    (let headers := bearer token in
     Await_fetch (Request "POST" url (Some headers) None) (fun o =>
       if is_200 o
       then Add_finding (Finding "PRIVILEGE_ESCALATION" url "CRITICAL")
              (Correlate "PRIVILEGE_ESCALATION" "ADMIN_ACTION" Return)
       else Return)).

Definition check_workflow (url token : string) : coro :=
  If_stop_scan Return
    (let headers := bearer token in
     let payload := [("status", "completed")] in
     Await_fetch (Request "POST" url (Some headers) (Some payload)) (fun o =>
       if is_200 o
       then Add_finding (Finding "WORKFLOW_BYPASS" url "HIGH")
              (Correlate "WORKFLOW_BYPASS" "FINANCIAL_IMPACT" Return)
       else Return)).

Definition waf_guarded (task : coro) : coro :=
  Await_sleep WAF_DELAY task.

(** The task list that [termul_full_async] hands to [asyncio.gather]. *)
Definition termul_full_async (base_url token : string) : list coro :=
  let exposed := ["admin"; "api/admin"; "debug"; "internal"] in
  let missing_auth := ["/api/admin"; "/api/internal/report"] in
  let admin_eps := ["/api/admin/approve"; "/api/admin/delete"] in
  map (fun r => waf_guarded (check_exposed_route (base_url +:+ "/" +:+ r)))
      exposed
  ++ map (fun ep => waf_guarded (check_missing_auth (base_url +:+ ep)))
         missing_auth
  ++ [waf_guarded (check_idor (base_url +:+ "/api/user/profile") token)]
  ++ map (fun ep => waf_guarded (check_privilege (base_url +:+ ep) token))
         admin_eps
  ++ [waf_guarded (check_workflow (base_url +:+ "/api/order/complete") token)].

(** ** The event loop *)

(** Run a coroutine up to its next [await] (or to its end): this is
    what the loop does with a task before any other task can run. *)
Fixpoint run_sync (c : coro) (g : globals) : coro * globals :=
  match c with
  | Return => (c, g)
  | Await_sleep _ _ => (c, g)
  | Await_fetch _ _ => (c, g)
  | If_stop_scan kthen kelse =>
      if stop_scan g then run_sync kthen g else run_sync kelse g
  | Add_finding f k => run_sync k (add_finding f g)
  | Correlate source target k => run_sync k (correlate source target g)
  end.

(** Wake a suspended coroutine: a sleep just ends, a pending [fetch]
    returns what the session answers. *)
Definition resume (s : session) (c : coro) : option coro :=
  match c with
  | Await_sleep _ k => Some k
  | Await_fetch req k => Some (k (fetched s req))
  | _ => None
  end.

(** The request a coroutine has in flight while it is suspended. *)
Definition issued (c : coro) : list request :=
  match c with
  | Await_fetch req _ => [req]
  | _ => []
  end.

Record loop_state := Loop {
  shared : globals;
  tasks : list coro;
  wire : list request
}.

(** One turn of the loop: task [tid] is resumed and runs to its next
    [await].  [None] when there is no such suspended task. *)
Definition step (s : session) (tid : nat) (st : loop_state)
  : option loop_state :=
  match tasks st !! tid with
  | Some c =>
      match resume s c with
      | Some c1 =>
          let '(c2, g2) := run_sync c1 (shared st) in
          Some {| shared := g2;
                  tasks := <[tid := c2]> (tasks st);
                  wire := wire st ++ issued c2 |}
      | None => None
      end
  | None => None
  end.

(** A run is a list of turns, each with the task that is resumed and
    the behaviour of the network at that moment. *)
Definition event : Type := nat * session.

Fixpoint exec (evs : list event) (st : loop_state) : option loop_state :=
  match evs with
  | [] => Some st
  | (tid, s) :: evs' =>
      match step s tid st with
      | Some st' => exec evs' st'
      | None => None
      end
  end.

(** A run against one fixed server. *)
Definition exec_oracle (s : session) (sched : list nat) (st : loop_state)
  : option loop_state :=
  exec (map (fun tid => (tid, s)) sched) st.

(** [asyncio.gather]: every coroutine becomes a task and runs, in
    order, to its first [await]. *)
Definition spawn (st : loop_state) (c : coro) : loop_state :=
  let '(c', g') := run_sync c (shared st) in
  {| shared := g';
     tasks := tasks st ++ [c'];
     wire := wire st ++ issued c' |}.

Definition gather (cs : list coro) (g : globals) : loop_state :=
  foldl spawn {| shared := g; tasks := []; wire := [] |} cs.

(** The scan that [__main__] starts. *)
Definition scan (base_url token : string) : loop_state :=
  gather (termul_full_async base_url token) initial_globals.

Definition is_return (c : coro) : bool :=
  match c with
  | Return => true
  | _ => false
  end.

Definition all_done (st : loop_state) : bool :=
  forallb is_return (tasks st).

(** One coroutine run alone to its end, every [await] answered at
    once: the final globals and the requests it made, in order. *)
Fixpoint drive (s : session) (c : coro) (g : globals)
  : globals * list request :=
  match c with
  | Return => (g, [])
  | Await_sleep _ k => drive s k g
  | Await_fetch req k =>
      let '(g', w) := drive s (k (fetched s req)) g in (g', req :: w)
  | If_stop_scan kthen kelse =>
      if stop_scan g then drive s kthen g else drive s kelse g
  | Add_finding f k => drive s k (add_finding f g)
  | Correlate source target k => drive s k (correlate source target g)
  end.

(** ** Specification vocabulary and scenarios *)

Definition I1 (g : globals) : Prop :=
  critical_count g = Z.of_nat (count_critical (findings g)).

Definition I3 (g : globals) : Prop :=
  stop_scan g = (CRITICAL_STOP_THRESHOLD <=? critical_count g)%Z.

Definition critical_probe : finding :=
  Finding "MISSING_AUTH" "https://target.com/api/admin" "CRITICAL".

(** The five check coroutines. *)
Inductive is_check : coro -> Prop :=
  | is_check_exposed_route url : is_check (check_exposed_route url)
  | is_check_missing_auth url : is_check (check_missing_auth url)
  | is_check_idor base token : is_check (check_idor base token)
  | is_check_privilege url token : is_check (check_privilege url token)
  | is_check_workflow url token : is_check (check_workflow url token).

Definition idor_request (base token : string) (id : string) : request :=
  Request "GET" (base +:+ "?id=" +:+ id) (Some (bearer token)) None.

Definition idor_finding (base : string) (id : string) : finding :=
  Finding "IDOR" (base +:+ "?id=" +:+ id) "CRITICAL".

(** A server that knows the objects 1 and 2 of [base] only. *)
Definition two_objects (base : string) : session :=
  fun req _ =>
    if String.eqb (url req) (base +:+ "?id=1")
       || String.eqb (url req) (base +:+ "?id=2")
    then Ok (Response 200 (Ok "{}"))
    else Ok (Response 404 (Ok EmptyString)).

(** The price of an [await], of a request, of a recorded finding. *)
Record weights := Weights {
  w_await : nat;
  w_fetch : nat;
  w_add : nat
}.

(** [cost_le w c n]: on every path through [c], whatever the network
    answers, the [await]s, requests and findings weigh at most [n]. *)
Fixpoint cost_le (w : weights) (c : coro) (n : nat) : Prop :=
  match c with
  | Return => True
  | Await_sleep _ k => w_await w <= n /\ cost_le w k (n - w_await w)
  | Await_fetch _ k =>
      w_await w + w_fetch w <= n
      /\ forall o, cost_le w (k o) (n - (w_await w + w_fetch w))
  | If_stop_scan kthen kelse => cost_le w kthen n /\ cost_le w kelse n
  | Add_finding _ k => w_add w <= n /\ cost_le w k (n - w_add w)
  | Correlate _ _ k => cost_le w k n
  end.

(** For a suspended task the request in flight is already paid. *)
Definition parked_le (w : weights) (c : coro) (n : nat) : Prop :=
  cost_le w c (n + length (issued c) * w_fetch w).

Definition spent (w : weights) (st : loop_state) : nat :=
  w_fetch w * length (wire st) + w_add w * length (findings (shared st)).

Definition ledger (w : weights) (st : loop_state) (budget : nat) : Prop :=
  exists ns, Forall2 (parked_le w) (tasks st) ns
             /\ spent w st + sum_list ns <= budget.

Definition suspended (c : coro) : Prop :=
  match c with
  | Return | Await_sleep _ _ | Await_fetch _ _ => True
  | _ => False
  end.

(** What each check costs. *)
Definition probe_cost (w : weights) : nat := w_await w + w_fetch w + w_add w.

Definition turns : weights := Weights 1 0 0.
Definition sends : weights := Weights 0 1 0.
Definition records : weights := Weights 0 0 1.

Definition always_fails (s : session) : Prop :=
  forall req, fetched s req = (None, None).

(** [quiet c]: when every [fetch] returns [(None, None)], [c] touches
    neither the findings nor the graph. *)
Fixpoint quiet (c : coro) : Prop :=
  match c with
  | Return => True
  | Await_sleep _ k => quiet k
  | Await_fetch _ k => quiet (k (None, None))
  | If_stop_scan kthen kelse => quiet kthen /\ quiet kelse
  | Add_finding _ _ => False
  | Correlate _ _ _ => False
  end.

(** What a coroutine records against server [s] as long as
    [stop_scan] stays false. *)
Fixpoint contrib (s : session) (c : coro) : list finding :=
  match c with
  | Return => []
  | Await_sleep _ k => contrib s k
  | Await_fetch req k => contrib s (k (fetched s req))
  | If_stop_scan _ kelse => contrib s kelse
  | Add_finding f k => f :: contrib s k
  | Correlate _ _ k => contrib s k
  end.

Definition pending (s : session) (ts : list coro) : list finding :=
  concat (map (contrib s) ts).

Definition settled (s : session) (total : list finding) (st : loop_state)
  : Prop :=
  stop_scan (shared st) = false
  /\ I1 (shared st)
  /\ findings (shared st) ++ pending s (tasks st) ≡ₚ total.

(** The server of the scenario: 200 for GET on the admin route and on
    the internal report, 404 for everything else, whatever the body. *)
Definition t_example (body : request -> string) : session :=
  fun req _ =>
    if String.eqb (method req) "GET"
       && (String.eqb (url req) "https://t.example/admin"
           || String.eqb (url req) "https://t.example/api/internal/report")
    then Ok (Response 200 (Ok (body req)))
    else Ok (Response 404 (Ok (body req))).

Definition admin_exposed : finding :=
  Finding "EXPOSED_ROUTE" "https://t.example/admin" "HIGH".

Definition report_unauthenticated : finding :=
  Finding "MISSING_AUTH" "https://t.example/api/internal/report" "CRITICAL".

(** The tasks woken in the order of their creation, then answered in
    that order. *)
Definition in_order : list nat :=
  seq 0 10 ++ seq 0 10 ++ [6; 6; 6; 6].

(** The impact label that goes with a finding type, if any. *)
Definition impact (t : string) : option string :=
  if String.eqb t "IDOR" then Some "DATA_DISCLOSURE"
  else if String.eqb t "PRIVILEGE_ESCALATION" then Some "ADMIN_ACTION"
  else if String.eqb t "WORKFLOW_BYPASS" then Some "FINANCIAL_IMPACT"
  else None.

(** The graph that goes with a list of findings: under each type with
    an impact, one edge per finding of that type. *)
Definition edges_of (fs : list finding) (k : string) : option (list string) :=
  match impact k with
  | Some label =>
      match count_type k fs with
      | 0 => None
      | S n => Some (replicate (S n) label)
      end
  | None => None
  end.

Definition graph_ok (g : globals) : Prop :=
  forall k, logic_graph g !! k = edges_of (findings g) k.

(** Code in which a finding of a type with an impact is followed at
    once by its edge, and no edge is added otherwise. *)
Inductive paired : coro -> Prop :=
  | paired_return : paired Return
  | paired_sleep d k : paired k -> paired (Await_sleep d k)
  | paired_fetch req k : (forall o, paired (k o)) -> paired (Await_fetch req k)
  | paired_if kthen kelse :
      paired kthen -> paired kelse -> paired (If_stop_scan kthen kelse)
  | paired_add f k :
      impact (type f) = None -> paired k -> paired (Add_finding f k)
  | paired_add_correlate f label k :
      impact (type f) = Some label -> paired k ->
      paired (Add_finding f (Correlate (type f) label k)).

(** A server that answers 200 to everything. *)
Definition wide_open : session :=
  fun _ _ => Ok (Response 200 (Ok EmptyString)).

(** The scan of [__main__], with its target and token. *)
Definition TARGET : string := "https://target.com".
Definition USER_TOKEN : string := "USER_JWT_TOKEN".
Definition main_scan : loop_state := scan TARGET USER_TOKEN.

(** A server that never answers 200 with a readable body. *)
Definition never_200 (s : session) : Prop :=
  forall req, is_200 (fetched s req) = false.

(** [silent c]: as long as no [fetch] comes back with status 200, [c]
    touches neither the findings nor the graph. *)
Fixpoint silent (c : coro) : Prop :=
  match c with
  | Return => True
  | Await_sleep _ k => silent k
  | Await_fetch _ k => forall o, is_200 o = false -> silent (k o)
  | If_stop_scan kthen kelse => silent kthen /\ silent kelse
  | Add_finding _ _ => False
  | Correlate _ _ _ => False
  end.

(** A firewall in front of the target that blocks everything. *)
Definition waf_blocks : session :=
  fun _ _ => Ok (Response 403 (Ok "blocked")).

(** The ids among [ids] for which the server gives a positive answer
    to the IDOR request. *)
Definition idor_hits (s : session) (base token : string) (ids : list nat)
  : list nat :=
  filter (fun i => Is_true (is_200 (fetched s (idor_request base token (pretty i)))))
    ids.

(** How many more CRITICAL findings the globals can take before the
    stop flag goes up. *)
Definition quota (g : globals) : nat :=
  Z.to_nat (CRITICAL_STOP_THRESHOLD - critical_count g).

(** A server that knows the objects [known] of [base] only. *)
Definition objects (base : string) (known : list nat) : session :=
  fun req _ =>
    if existsb (fun i => String.eqb (url req) (base +:+ "?id=" +:+ pretty i))
         known
    then Ok (Response 200 (Ok "{}"))
    else Ok (Response 404 (Ok "not found")).

(** [guard true c]: run with the stop flag up, [c] reaches its end or
    a sleep without a request, and so does everything that follows.
    [guard false c] asks this of what follows the next [await] only. *)
Fixpoint guard (strict : bool) (c : coro) : Prop :=
  match c with
  | Return => True
  | Await_sleep _ k => guard true k
  | Await_fetch _ k => if strict then False else forall o, guard true (k o)
  | If_stop_scan kthen kelse => guard strict kthen /\ guard false kelse
  | Add_finding _ k => guard strict k
  | Correlate _ _ k => guard strict k
  end.

(** The battery of requests of a scan, check by check. *)
Definition planned_requests (base_url token : string) : list request :=
  map (fun r => Request "GET" (base_url +:+ "/" +:+ r) None None)
      ["admin"; "api/admin"; "debug"; "internal"]
  ++ map (fun ep => Request "GET" (base_url +:+ ep) None None)
         ["/api/admin"; "/api/internal/report"]
  ++ map (fun i => idor_request (base_url +:+ "/api/user/profile") token
                     (pretty i))
         (seq 1 5)
  ++ map (fun ep => Request "POST" (base_url +:+ ep) (Some (bearer token)) None)
         ["/api/admin/approve"; "/api/admin/delete"]
  ++ [Request "POST" (base_url +:+ "/api/order/complete")
        (Some (bearer token)) (Some [("status", "completed")])].

(** [follows c plan]: the requests that [c] sends are, in order, the
    first requests of [plan]. *)
Fixpoint follows (c : coro) (plan : list request) : Prop :=
  match c with
  | Return => True
  | Await_sleep _ k => follows k plan
  | Await_fetch req k =>
      match plan with
      | req' :: plan' => req = req' /\ forall o, follows (k o) plan'
      | [] => False
      end
  | If_stop_scan kthen kelse => follows kthen plan /\ follows kelse plan
  | Add_finding _ k => follows k plan
  | Correlate _ _ k => follows k plan
  end.

(** For a suspended task the request in flight has left the plan. *)
Definition parked_follows (c : coro) (plan : list request) : Prop :=
  match c with
  | Await_fetch _ k => forall o, follows (k o) plan
  | _ => follows c plan
  end.

(** The risk each check gives to its findings. *)
Definition risk_of (t : string) : option string :=
  if String.eqb t "EXPOSED_ROUTE" then Some "HIGH"
  else if String.eqb t "MISSING_AUTH" then Some "CRITICAL"
  else if String.eqb t "IDOR" then Some "CRITICAL"
  else if String.eqb t "PRIVILEGE_ESCALATION" then Some "CRITICAL"
  else if String.eqb t "WORKFLOW_BYPASS" then Some "HIGH"
  else None.

Definition classified (f : finding) : Prop :=
  risk_of (type f) = Some (risk f).

(** [traced last c]: every finding that [c] records is classified and
    has as endpoint the URL of the request answered last ([last] for
    the code in front of the first [await]). *)
Fixpoint traced (last : option string) (c : coro) : Prop :=
  match c with
  | Return => True
  | Await_sleep _ k => traced last k
  | Await_fetch req k => forall o, traced (Some (url req)) (k o)
  | If_stop_scan kthen kelse => traced last kthen /\ traced last kelse
  | Add_finding f k =>
      last = Some (endpoint f) /\ classified f /\ traced last k
  | Correlate _ _ k => traced last k
  end.

(** A task whose findings will all be for URLs in [urls]. *)
Definition task_traced (urls : list string) (c : coro) : Prop :=
  exists last,
    (forall u, last = Some u -> u ∈ urls)
    /\ traced last c
    /\ Forall (fun req => url req ∈ urls) (issued c).

Definition finding_traced (urls : list string) (f : finding) : Prop :=
  classified f /\ endpoint f ∈ urls.

(** [no_idor c]: [c] records no IDOR finding. *)
Fixpoint no_idor (c : coro) : Prop :=
  match c with
  | Return => True
  | Await_sleep _ k => no_idor k
  | Await_fetch _ k => forall o, no_idor (k o)
  | If_stop_scan kthen kelse => no_idor kthen /\ no_idor kelse
  | Add_finding f k => type f <> "IDOR" /\ no_idor k
  | Correlate _ _ k => no_idor k
  end.

(** The IDOR task while it waits for the answer about one id. *)
Definition idor_armed (base : string) (hdrs : dict) (c : coro) : Prop :=
  exists i ids, idor_loop base hdrs (i :: ids) = If_stop_scan Return c.

(** The shapes of the IDOR task between two turns, with [n] the
    number of IDOR findings so far. *)
Definition idor_task (base : string) (hdrs : dict) (n : nat) (c : coro)
  : Prop :=
  c = Return
  \/ (exists ids, c = waf_guarded (idor_loop base hdrs ids))
  \/ (idor_armed base hdrs c /\ n <= 1).

(** Globals in which the counter, the stop flag and the findings agree
    and every IDOR finding counts as CRITICAL. *)
Definition sane (g : globals) : Prop :=
  I1 g /\ I3 g
  /\ count_type "IDOR" (findings g) <= count_critical (findings g).

Definition idor_invariant (base : string) (hdrs : dict) (st : loop_state)
  : Prop :=
  (exists c, tasks st !! 6 = Some c
             /\ idor_task base hdrs
                  (count_type "IDOR" (findings (shared st))) c)
  /\ (forall i c, i <> 6 -> tasks st !! i = Some c -> no_idor c)
  /\ count_type "IDOR" (findings (shared st)) <= 2.

(** The requests a coroutine sends against server [s] as long as
    [stop_scan] stays false. *)
Fixpoint asks (s : session) (c : coro) : list request :=
  match c with
  | Return => []
  | Await_sleep _ k => asks s k
  | Await_fetch req k => req :: asks s (k (fetched s req))
  | If_stop_scan _ kelse => asks s kelse
  | Add_finding _ k => asks s k
  | Correlate _ _ k => asks s k
  end.

(** The same for a suspended task: its request in flight is sent
    already. *)
Definition parked_asks (s : session) (c : coro) : list request :=
  match c with
  | Await_fetch req k => asks s (k (fetched s req))
  | _ => asks s c
  end.

(** ** The report *)

(** [summary[k] += 1] on a [defaultdict(int)]: a dict keeps its keys in
    the order of their first insertion, so it is a list of pairs. *)
Fixpoint bump (k : string) (m : list (string * Z)) : list (string * Z) :=
  match m with
  | [] => [(k, 1%Z)]
  | (k', v) :: m' =>
      if String.eqb k' k then (k', (v + 1)%Z) :: m'
      else (k', v) :: bump k m'
  end.

(** The risk summary that [report] builds from the findings. *)
Definition risk_summary (fs : list finding) : list (string * Z) :=
  foldl (fun summary f => bump (risk f) summary) [] fs.

Definition count_risk (r : string) (fs : list finding) : nat :=
  length (filter (fun f => risk f = r) fs).

(** The distinct elements of a list in the order of their first
    occurrence. *)
Definition first_seen (l : list string) : list string :=
  reverse (remove_dups (reverse l)).

(** [never_sleeps c]: [c] has no pacing delay of its own. *)
Fixpoint never_sleeps (c : coro) : Prop :=
  match c with
  | Return => True
  | Await_sleep _ _ => False
  | Await_fetch _ k => forall o, never_sleeps (k o)
  | If_stop_scan kthen kelse => never_sleeps kthen /\ never_sleeps kelse
  | Add_finding _ k => never_sleeps k
  | Correlate _ _ k => never_sleeps k
  end.

(** The findings a scan can make, check by check. *)
Definition possible_findings (base_url token : string) : list finding :=
  map (fun r => Finding "EXPOSED_ROUTE" (base_url +:+ "/" +:+ r) "HIGH")
      ["admin"; "api/admin"; "debug"; "internal"]
  ++ map (fun ep => Finding "MISSING_AUTH" (base_url +:+ ep) "CRITICAL")
         ["/api/admin"; "/api/internal/report"]
  ++ map (fun i => idor_finding (base_url +:+ "/api/user/profile") (pretty i))
         (seq 1 5)
  ++ map (fun ep => Finding "PRIVILEGE_ESCALATION" (base_url +:+ ep) "CRITICAL")
         ["/api/admin/approve"; "/api/admin/delete"]
  ++ [Finding "WORKFLOW_BYPASS" (base_url +:+ "/api/order/complete") "HIGH"].

(** [adds_within c plan]: the findings that [c] records are taken
    from [plan], each entry of it at most once. *)
Fixpoint adds_within (c : coro) (plan : list finding) : Prop :=
  match c with
  | Return => True
  | Await_sleep _ k => adds_within k plan
  | Await_fetch _ k => forall o, adds_within (k o) plan
  | If_stop_scan kthen kelse => adds_within kthen plan /\ adds_within kelse plan
  | Add_finding f k =>
      exists plan', f :: plan' ⊆+ plan /\ adds_within k plan'
  | Correlate _ _ k => adds_within k plan
  end.

(** IDOR answered first, twice, and then everything else. *)
Definition idor_first : list nat :=
  seq 0 10 ++ [6; 6] ++ [0; 1; 2; 3; 4; 5; 7; 8; 9].

(** [due hit c]: up to its next [await], [c] records exactly one
    finding when [hit] is true and none otherwise, and the same holds
    after every later answer, with [hit] telling whether the answer
    was positive. *)
Fixpoint due (hit : bool) (c : coro) : Prop :=
  match c with
  | Return => hit = false
  | Await_sleep _ k => hit = false /\ due false k
  | Await_fetch _ k => hit = false /\ forall o, due (is_200 o) (k o)
  | If_stop_scan kthen kelse => due hit kthen /\ due hit kelse
  | Add_finding _ k => hit = true /\ due false k
  | Correlate _ _ k => due hit k
  end.

(** A task of a scan that is asleep or has returned without work. *)
Definition idle (c : coro) : Prop :=
  c = Return \/ exists check, c = waf_guarded check /\ is_check check.

(** * Properties *)

(** ** The counter and the stop flag *)

Lemma count_critical_app fs1 fs2 :
  count_critical (fs1 ++ fs2) = count_critical fs1 + count_critical fs2.
Proof. unfold count_critical. by rewrite filter_app, length_app. Qed.

Lemma count_critical_one f :
  count_critical [f] = if String.eqb (risk f) "CRITICAL" then 1 else 0.
Proof.
  unfold count_critical. rewrite filter_cons, filter_nil.
  destruct (String.eqb_spec (risk f) "CRITICAL");
    case_decide; simpl; congruence.
Qed.

Lemma add_finding_I1 f g : I1 g -> I1 (add_finding f g).
Proof.
  unfold I1. intros H. simpl.
  rewrite count_critical_app, count_critical_one, H.
  destruct (String.eqb (risk f) "CRITICAL"); lia.
Qed.

Lemma correlate_I1 a b g : I1 g -> I1 (correlate a b g).
Proof. done. Qed.

Lemma add_finding_I3 f g : I3 g -> I3 (add_finding f g).
Proof.
  unfold I3, add_finding. cbn [stop_scan critical_count]. intros ->.
  generalize CRITICAL_STOP_THRESHOLD (critical_count g). intros t n.
  destruct (String.eqb (risk f) "CRITICAL");
    repeat match goal with |- context [(?a <=? ?b)%Z] =>
      destruct (Z.leb_spec a b) end; try done; lia.
Qed.

Lemma correlate_I3 a b g : I3 g -> I3 (correlate a b g).
Proof. done. Qed.

Lemma run_sync_preserves (P : globals -> Prop) :
  (forall f g, P g -> P (add_finding f g)) ->
  (forall a b g, P g -> P (correlate a b g)) ->
  forall c g, P g -> P (run_sync c g).2.
Proof.
  intros Hadd Hcor c. induction c; simpl; intros g Hg; auto.
  destruct (stop_scan g); auto.
Qed.

Lemma step_preserves (P : globals -> Prop) :
  (forall f g, P g -> P (add_finding f g)) ->
  (forall a b g, P g -> P (correlate a b g)) ->
  forall s tid st st', step s tid st = Some st' ->
    P (shared st) -> P (shared st').
Proof.
  intros Hadd Hcor s tid st st'. unfold step.
  destruct (tasks st !! tid) as [c|]; [|done].
  destruct (resume s c) as [c1|]; [|done].
  pose proof (run_sync_preserves P Hadd Hcor c1 (shared st)) as Hrs.
  destruct (run_sync c1 (shared st)) as [c2 g2].
  intros [= <-] Hg. simpl. auto.
Qed.

Lemma exec_preserves (P : globals -> Prop) :
  (forall f g, P g -> P (add_finding f g)) ->
  (forall a b g, P g -> P (correlate a b g)) ->
  forall evs st st', exec evs st = Some st' ->
    P (shared st) -> P (shared st').
Proof.
  intros Hadd Hcor evs.
  induction evs as [|[tid s] evs IH]; simpl; intros st st'.
  - by intros [= <-].
  - destruct (step s tid st) as [st1|] eqn:Hstep; [|done].
    intros Hexec Hg. eapply IH; [done|].
    eapply step_preserves; eauto.
Qed.

Lemma record_all_snoc fs f :
  record_all (fs ++ [f]) = add_finding f (record_all fs).
Proof. unfold record_all. by rewrite foldl_app. Qed.

Lemma record_all_preserves (P : globals -> Prop) :
  P initial_globals ->
  (forall f g, P g -> P (add_finding f g)) ->
  forall fs, P (record_all fs).
Proof.
  intros H0 Hadd fs. induction fs as [|f fs IH] using rev_ind; [done|].
  rewrite record_all_snoc. auto.
Qed.

Lemma spawn_preserves (P : globals -> Prop) :
  (forall f g, P g -> P (add_finding f g)) ->
  (forall a b g, P g -> P (correlate a b g)) ->
  forall st c, P (shared st) -> P (shared (spawn st c)).
Proof.
  intros Hadd Hcor st c Hg. unfold spawn.
  pose proof (run_sync_preserves P Hadd Hcor c (shared st) Hg) as Hrs.
  by destruct (run_sync c (shared st)).
Qed.

Lemma gather_preserves (P : globals -> Prop) :
  (forall f g, P g -> P (add_finding f g)) ->
  (forall a b g, P g -> P (correlate a b g)) ->
  forall cs g, P g -> P (shared (gather cs g)).
Proof.
  intros Hadd Hcor cs g Hg. unfold gather.
  set (st0 := {| shared := g; tasks := []; wire := [] |}).
  assert (P (shared st0)) as H0 by done.
  clearbody st0. revert st0 H0.
  induction cs as [|c cs IH]; simpl; intros st0 H0; [done|].
  apply IH. by apply spawn_preserves.
Qed.

Lemma scan_I1 base_url token : I1 (shared (scan base_url token)).
Proof.
  unfold scan.
  apply (gather_preserves I1); [apply add_finding_I1|apply correlate_I1|done].
Qed.

(** C1 (invariant I1).  After every call of [add_finding], and in
    every state of every scan (so in the final one), [critical_count]
    is the number of findings whose risk is CRITICAL. *)
Theorem critical_count_counts_critical_findings :
  (forall fs f,
     critical_count (add_finding f (record_all fs))
     = Z.of_nat (count_critical (findings (add_finding f (record_all fs)))))
  /\ (forall base_url token evs st,
        exec evs (scan base_url token) = Some st ->
        critical_count (shared st)
        = Z.of_nat (count_critical (findings (shared st)))).
Proof.
  split.
  - intros fs f. apply add_finding_I1.
    apply (record_all_preserves I1); [done|apply add_finding_I1].
  - intros base_url token evs st Hexec.
    apply (exec_preserves I1 add_finding_I1 correlate_I1 _ _ _ Hexec).
    apply scan_I1.
Qed.

(** C2 (invariant I3).  In every state reached by recording findings
    from the initial state, [stop_scan] holds exactly when
    [critical_count >= 2]; a call of [add_finding] switches the flag on
    exactly when it takes the counter from below the threshold to the
    threshold, and a flag that is on stays on. *)
Theorem stop_scan_iff_threshold_reached :
  forall fs f,
    (stop_scan (record_all fs) = true
       <-> (2 <= critical_count (record_all fs))%Z)
    /\ ((stop_scan (record_all fs) = false
         /\ stop_scan (add_finding f (record_all fs)) = true)
        <-> (critical_count (record_all fs) < CRITICAL_STOP_THRESHOLD
             <= critical_count (add_finding f (record_all fs)))%Z)
    /\ (stop_scan (record_all fs) = true
        -> stop_scan (add_finding f (record_all fs)) = true).
Proof.
  intros fs f.
  assert (I3 (record_all fs)) as H
    by (apply (record_all_preserves I3); [done|apply add_finding_I3]).
  pose proof (add_finding_I3 f _ H) as H'.
  unfold I3, CRITICAL_STOP_THRESHOLD in *. rewrite H, H'.
  assert (critical_count (record_all fs)
          <= critical_count (add_finding f (record_all fs)))%Z as Hmono
    by (simpl; destruct (String.eqb (risk f) "CRITICAL"); lia).
  rewrite Z.leb_le, Z.leb_gt. lia.
Qed.

Lemma add_finding_stop_scan f g :
  stop_scan g = true -> stop_scan (add_finding f g) = true.
Proof.
  intros H. simpl. rewrite H.
  by destruct (CRITICAL_STOP_THRESHOLD <=? _)%Z.
Qed.

(** C3 (invariant I2).  Once [stop_scan] is true no operation sets it
    back: not [add_finding], not [correlate], not any stretch of
    coroutine code between two [await]s, and so no run of the loop
    over any tasks.  ([fetch] has no access to the globals at all.) *)
Theorem stop_scan_never_reverts :
  forall g, stop_scan g = true ->
    (forall f, stop_scan (add_finding f g) = true)
    /\ (forall source target, stop_scan (correlate source target g) = true)
    /\ (forall c, stop_scan (run_sync c g).2 = true)
    /\ (forall evs ts w st',
          exec evs {| shared := g; tasks := ts; wire := w |} = Some st' ->
          stop_scan (shared st') = true).
Proof.
  intros g Hg. repeat split.
  - intros f. by apply add_finding_stop_scan.
  - done.
  - intros c.
    apply (run_sync_preserves (fun g => stop_scan g = true));
      auto using add_finding_stop_scan.
  - intros evs ts w st' Hexec.
    apply (exec_preserves (fun g => stop_scan g = true)
             add_finding_stop_scan (fun _ _ _ H => H) _ _ _ Hexec).
    done.
Qed.

Lemma stop_scan_never_reverts_witness :
  stop_scan (record_all [critical_probe; critical_probe]) = true
  /\ stop_scan (add_finding (Finding "EXPOSED_ROUTE" "https://target.com/debug" "HIGH")
                  (record_all [critical_probe; critical_probe])) = true.
Proof.
  split; [reflexivity|].
  exact (proj1 (stop_scan_never_reverts
                  (record_all [critical_probe; critical_probe]) eq_refl) _).
Defined.

Lemma idor_loop_stopped base hdrs ids g :
  stop_scan g = true -> run_sync (idor_loop base hdrs ids) g = (Return, g).
Proof. intros H. destruct ids; simpl; by rewrite ?H. Qed.

Lemma check_stopped c g :
  is_check c -> stop_scan g = true -> run_sync c g = (Return, g).
Proof.
  intros [] H; simpl; by rewrite ?H.
Qed.

(** C4.  A check that finds [stop_scan] set when it starts returns at
    once: it reaches no [await], so it sends nothing, and the globals
    are as before.  The same holds for the IDOR loop in front of any
    iteration.  In the loop, the turn that wakes such a task ends it
    with the globals and the wire unchanged, and a finished task is
    never run again. *)
Theorem stopped_check_returns_at_once :
  forall g, stop_scan g = true ->
    (forall c, is_check c -> run_sync c g = (Return, g))
    /\ (forall base hdrs ids,
          run_sync (idor_loop base hdrs ids) g = (Return, g))
    /\ (forall c s tid ts w, is_check c ->
          ts !! tid = Some (waf_guarded c) ->
          step s tid {| shared := g; tasks := ts; wire := w |}
          = Some {| shared := g; tasks := <[tid := Return]> ts; wire := w |})
    /\ (forall s tid st, tasks st !! tid = Some Return -> step s tid st = None).
Proof.
  intros g Hg. repeat split.
  - intros c Hc. by apply check_stopped.
  - intros. by apply idor_loop_stopped.
  - intros c s tid ts w Hc Hts. unfold step. simpl. rewrite Hts. simpl.
    rewrite (check_stopped c g Hc Hg). simpl. by rewrite app_nil_r.
  - intros s tid st Hts. unfold step. by rewrite Hts.
Qed.

Lemma stopped_check_returns_at_once_witness :
  stop_scan (record_all [critical_probe; critical_probe]) = true
  /\ run_sync (check_idor "https://target.com/api/user/profile" "USER_JWT_TOKEN")
       (record_all [critical_probe; critical_probe])
     = (Return, record_all [critical_probe; critical_probe]).
Proof.
  split; [reflexivity|].
  exact (proj1 (stopped_check_returns_at_once
                  (record_all [critical_probe; critical_probe]) eq_refl)
           _ (is_check_idor _ _)).
Defined.

(** C5.  [fetch] sends its request once, whatever comes back; when the
    request raises (transport error, timeout, protocol error, anything
    else) or reading the body raises, the caller gets [(None, None)]
    as an ordinary value; only a complete answer gives a status and a
    text. *)
Theorem fetch_failure_is_none_none :
  forall s method url headers json w,
    let req := Request method url headers json in
    (fetch s req w).2 = w ++ [req]
    /\ (forall e, s req TIMEOUT = Raise e ->
          (fetch s req w).1 = (None, None))
    /\ (forall st e, s req TIMEOUT = Ok (Response st (Raise e)) ->
          (fetch s req w).1 = (None, None))
    /\ (forall st body, s req TIMEOUT = Ok (Response st (Ok body)) ->
          (fetch s req w).1 = (Some st, Some body)).
Proof.
  intros s method url headers json w req.
  unfold fetch, try_except, net_bind, session_request, read_text, net_ret.
  destruct (s req TIMEOUT) as [[st [body|e']]|e] eqn:Hs; simpl;
    repeat split; intros; simplify_eq; done.
Qed.

(** ** One coroutine run alone *)

Lemma spawn_unfold st c :
  spawn st c
  = {| shared := (run_sync c (shared st)).2;
       tasks := tasks st ++ [(run_sync c (shared st)).1];
       wire := wire st ++ issued (run_sync c (shared st)).1 |}.
Proof. unfold spawn. by destruct (run_sync c (shared st)). Qed.

Lemma step_alone s c g w c1 :
  resume s c = Some c1 ->
  step s 0 {| shared := g; tasks := [c]; wire := w |}
  = Some (spawn {| shared := g; tasks := []; wire := w |} c1).
Proof.
  intros Hres. unfold step. simpl. rewrite Hres, spawn_unfold. simpl.
  by destruct (run_sync c1 g).
Qed.

(** [drive] is the run of the loop over the single task: the loop can
    take the task to its end, and it ends with the globals and the
    requests that [drive] computes. *)
Lemma drive_is_the_run_alone s c : forall g w,
  exists sched st,
    exec_oracle s sched (spawn {| shared := g; tasks := []; wire := w |} c)
    = Some st
    /\ all_done st = true
    /\ shared st = (drive s c g).1
    /\ wire st = w ++ (drive s c g).2.
Proof.
  induction c as [|d k IH|req k IH|a IHa b IHb|f k IH|x y k IH]; intros g w.
  - exists [], (spawn {| shared := g; tasks := []; wire := w |} Return).
    by rewrite spawn_unfold.
  - destruct (IH g (w ++ [])) as (sched & st & Hexec & Hdone & Hg & Hw).
    exists (0 :: sched), st. rewrite spawn_unfold. unfold exec_oracle in *.
    cbn [map exec run_sync fst snd shared tasks wire issued app].
    rewrite (step_alone s (Await_sleep d k) g (w ++ []) k eq_refl), Hexec.
    repeat split; try done. by rewrite Hw, app_nil_r.
  - destruct (IH (fetched s req) g (w ++ [req]))
      as (sched & st & Hexec & Hdone & Hg & Hw).
    exists (0 :: sched), st. rewrite spawn_unfold. unfold exec_oracle in *.
    cbn [map exec run_sync fst snd shared tasks wire issued app drive].
    rewrite (step_alone s (Await_fetch req k) g (w ++ [req])
               (k (fetched s req)) eq_refl), Hexec.
    destruct (drive s (k (fetched s req)) g) as [g' w'].
    simpl in *. repeat split; try done. by rewrite Hw, <- app_assoc.
  - rewrite spawn_unfold. simpl. destruct (stop_scan g).
    + specialize (IHa g w). by rewrite spawn_unfold in IHa.
    + specialize (IHb g w). by rewrite spawn_unfold in IHb.
  - specialize (IH (add_finding f g) w).
    rewrite spawn_unfold in *. exact IH.
  - specialize (IH (correlate x y g) w).
    rewrite spawn_unfold in *. exact IH.
Qed.

(** ** The IDOR loop *)

(** C6.  Run alone from globals without critical findings, against a
    server that answers 200 for ids 1 and 2, [check_idor] records the
    two CRITICAL IDOR findings and the two IDOR -> DATA_DISCLOSURE
    edges, raises [stop_scan] with the second one, and sends the
    requests for ids 1 and 2 only: nothing is asked for ids 3, 4, 5. *)
Theorem check_idor_two_hits_then_stop :
  forall (s : session) (base token : string) (g : globals),
    critical_count g = 0%Z ->
    stop_scan g = false ->
    is_200 (fetched s (idor_request base token "1")) = true ->
    is_200 (fetched s (idor_request base token "2")) = true ->
    drive s (check_idor base token) g
    = ({| findings :=
            findings g ++ [idor_finding base "1"; idor_finding base "2"];
          critical_count := 2;
          stop_scan := true;
          logic_graph :=
            <["IDOR" := default [] (logic_graph g !! "IDOR")
                        ++ ["DATA_DISCLOSURE"; "DATA_DISCLOSURE"]]>
              (logic_graph g) |},
       [idor_request base token "1"; idor_request base token "2"]).
Proof.
  intros s base token [fs cc ss lg]. simpl. intros -> -> H1 H2.
  unfold check_idor, idor_request, idor_finding in *.
  unfold add_finding, correlate, CRITICAL_STOP_THRESHOLD.
  cbn -[insert lookup pretty].
  change (pretty 1) with "1". change (pretty 2) with "2".
  rewrite H1. cbn -[insert lookup pretty]. rewrite H2.
  cbn -[insert lookup pretty].
  unfold add_finding, correlate, CRITICAL_STOP_THRESHOLD.
  cbn -[insert lookup pretty].
  rewrite lookup_insert_eq, insert_insert_eq. cbn -[insert lookup].
  by rewrite <- !app_assoc.
Qed.

Lemma check_idor_two_hits_then_stop_witness :
  let base := "https://target.com/api/user/profile" in
  let token := "USER_JWT_TOKEN" in
  is_200 (fetched (two_objects base) (idor_request base token "3")) = false
  /\ drive (two_objects base) (check_idor base token) initial_globals
     = ({| findings := [idor_finding base "1"; idor_finding base "2"];
           critical_count := 2;
           stop_scan := true;
           logic_graph :=
             <["IDOR" := ["DATA_DISCLOSURE"; "DATA_DISCLOSURE"]]> ∅ |},
        [idor_request base token "1"; idor_request base token "2"]).
Proof.
  split; [reflexivity|].
  apply (check_idor_two_hits_then_stop
           (two_objects "https://target.com/api/user/profile")
           "https://target.com/api/user/profile" "USER_JWT_TOKEN"
           initial_globals); reflexivity.
Defined.

(** ** Budgets: how much a task can still do *)

Section Budget.
Variable w : weights.

Lemma cost_le_mono c : forall n m, n <= m -> cost_le w c n -> cost_le w c m.
Proof.
  induction c as [|d k IH|req k IH|a IHa b IHb|f k IH|x y k IH];
    simpl; intros n m Hnm; try done.
  - intros [? Hk]. split; [lia|]. eapply IH; [|done]. lia.
  - intros [? Hk]. split; [lia|]. intros o. eapply IH; [|apply Hk]. lia.
  - intros [? ?]. split; eauto.
  - intros [? Hk]. split; [lia|]. eapply IH; [|done]. lia.
  - eauto.
Qed.

Lemma run_sync_cost c : forall g n,
  cost_le w c n ->
  exists n', cost_le w (run_sync c g).1 n'
    /\ w_add w * length (findings (run_sync c g).2) + n'
       <= w_add w * length (findings g) + n.
Proof.
  induction c as [|d k IH|req k IH|a IHa b IHb|f k IH|x y k IH];
    intros g n Hc; simpl run_sync.
  - exists n. by split.
  - exists n. by split.
  - exists n. by split.
  - destruct Hc as [Ha Hb]. destruct (stop_scan g); eauto.
  - destruct Hc as [Hle Hk].
    destruct (IH (add_finding f g) _ Hk) as (n' & Hn' & Hlen).
    exists n'. split; [done|].
    simpl in Hlen. rewrite length_app in Hlen. simpl in Hlen. lia.
  - destruct (IH (correlate x y g) _ Hc) as (n' & Hn' & Hlen).
    exists n'. by split.
Qed.

Lemma cost_le_parked c n :
  cost_le w c n -> parked_le w c (n - length (issued c) * w_fetch w).
Proof.
  unfold parked_le. intros Hc. destruct c; simpl in *;
    try done; try (by rewrite Nat.sub_0_r, Nat.add_0_r).
  destruct Hc as [Hle Hk].
  replace (n - (w_fetch w + 0) + (w_fetch w + 0)) with n by lia. done.
Qed.

Lemma resume_cost s c c1 n :
  parked_le w c n -> resume s c = Some c1 ->
  w_await w <= n /\ cost_le w c1 (n - w_await w).
Proof.
  unfold parked_le. destruct c; simpl; try done.
  - intros Hk [= <-]. by rewrite Nat.add_0_r in Hk.
  - intros [Hle Hk] [= <-]. split; [lia|].
    eapply cost_le_mono; [|apply Hk]. lia.
Qed.

Lemma sum_list_insert (ns : list nat) i n m :
  ns !! i = Some n -> sum_list (<[i := m]> ns) + n = sum_list ns + m.
Proof.
  revert i. induction ns as [|a ns IH]; intros [|i]; simpl;
    intros Hi; simplify_eq; [lia|].
  specialize (IH i Hi). lia.
Qed.

Lemma sum_list_lookup_le (ns : list nat) i n :
  ns !! i = Some n -> n <= sum_list ns.
Proof.
  revert i. induction ns as [|a ns IH]; intros [|i]; simpl;
    intros Hi; simplify_eq; [lia|].
  specialize (IH i Hi). lia.
Qed.

Lemma step_ledger s tid st st' budget :
  ledger w st budget -> step s tid st = Some st' ->
  w_await w <= budget /\ ledger w st' (budget - w_await w).
Proof.
  intros (ns & Hall & Hsum). unfold step.
  destruct (tasks st !! tid) as [c|] eqn:Hc; [|done].
  destruct (resume s c) as [c1|] eqn:Hres; [|done].
  destruct (Forall2_lookup_l _ _ _ _ _ Hall Hc) as (n & Hn & Hpark).
  destruct (resume_cost _ _ _ _ Hpark Hres) as [Hle Hc1].
  destruct (run_sync_cost c1 (shared st) _ Hc1) as (n' & Hn' & Hlen).
  destruct (run_sync c1 (shared st)) as [c2 g2]. simpl in *.
  intros [= <-].
  pose proof (sum_list_lookup_le _ _ _ Hn) as Hnsum.
  pose proof (cost_le_parked _ _ Hn') as Hpark2.
  split; [lia|].
  exists (<[tid := n' - length (issued c2) * w_fetch w]> ns). split.
  - by apply Forall2_insert.
  - pose proof (sum_list_insert ns tid n
                  (n' - length (issued c2) * w_fetch w) Hn) as Hins.
    unfold spent in *. simpl. rewrite length_app.
    assert (length (issued c2) * w_fetch w <= n') as Hiss.
    { destruct c2; simpl in *; lia. }
    lia.
Qed.

Lemma exec_ledger evs : forall st st' budget,
  ledger w st budget -> exec evs st = Some st' ->
  w_await w * length evs <= budget
  /\ ledger w st' (budget - w_await w * length evs).
Proof.
  induction evs as [|[tid s] evs IH]; simpl; intros st st' budget Hl.
  - intros [= <-]. rewrite Nat.mul_0_r, Nat.sub_0_r. split; [lia|done].
  - destruct (step s tid st) as [st1|] eqn:Hstep; [|done]. intros Hexec.
    destruct (step_ledger _ _ _ _ _ Hl Hstep) as [Hle Hl1].
    destruct (IH _ _ _ Hl1 Hexec) as [Hle' Hl'].
    split; [lia|].
    replace (budget - w_await w * S (length evs))
      with (budget - w_await w - w_await w * length evs) by lia.
    done.
Qed.

Lemma ledger_spent st budget : ledger w st budget -> spent w st <= budget.
Proof. intros (ns & _ & H). lia. Qed.

Lemma idor_loop_cost base hdrs ids :
  cost_le w (idor_loop base hdrs ids) (length ids * probe_cost w).
Proof.
  unfold probe_cost.
  induction ids as [|i ids IH]; simpl; [done|].
  split; [done|]. split; [lia|]. intros o.
  destruct (is_200 o); simpl.
  - split; [lia|]. eapply cost_le_mono; [|apply IH]. lia.
  - eapply cost_le_mono; [|apply IH]. lia.
Qed.

Lemma single_probe_cost req f rest :
  cost_le w rest 0 ->
  cost_le w
    (If_stop_scan Return
       (Await_fetch req (fun o =>
          if is_200 o then Add_finding f rest else Return)))
    (probe_cost w).
Proof.
  intros Hrest. unfold probe_cost. simpl. split; [done|].
  split; [lia|]. intros o. destruct (is_200 o); simpl; [|done].
  split; [lia|]. eapply cost_le_mono; [|done]. lia.
Qed.

Lemma check_exposed_route_cost url :
  cost_le w (check_exposed_route url) (probe_cost w).
Proof. by apply single_probe_cost. Qed.

Lemma check_missing_auth_cost url :
  cost_le w (check_missing_auth url) (probe_cost w).
Proof. by apply single_probe_cost. Qed.

Lemma check_idor_cost base token :
  cost_le w (check_idor base token) (5 * probe_cost w).
Proof. apply (idor_loop_cost _ _ (seq 1 5)). Qed.

Lemma check_privilege_cost url token :
  cost_le w (check_privilege url token) (probe_cost w).
Proof. by apply single_probe_cost. Qed.

Lemma check_workflow_cost url token :
  cost_le w (check_workflow url token) (probe_cost w).
Proof. by apply single_probe_cost. Qed.

Lemma waf_guarded_parked c n :
  cost_le w c n -> parked_le w (waf_guarded c) (w_await w + n).
Proof.
  intros Hc. unfold parked_le. simpl. split; [lia|].
  eapply cost_le_mono; [|done]. lia.
Qed.
End Budget.

Lemma scan_unfold base_url token :
  scan base_url token
  = {| shared := initial_globals;
       tasks := termul_full_async base_url token;
       wire := [] |}.
Proof. reflexivity. Qed.

Lemma scan_ledger w base_url token :
  ledger w (scan base_url token)
    (24 * w_await w + 14 * w_fetch w + 14 * w_add w).
Proof.
  rewrite scan_unfold.
  exists (replicate 6 (w_await w + probe_cost w)
          ++ [w_await w + 5 * probe_cost w]
          ++ replicate 3 (w_await w + probe_cost w)).
  split.
  - unfold termul_full_async. cbn [map app replicate tasks].
    repeat (constructor;
      [apply waf_guarded_parked;
       first [apply check_exposed_route_cost
             |apply check_missing_auth_cost
             |apply check_idor_cost
             |apply check_privilege_cost
             |apply check_workflow_cost]|]).
    constructor.
  - unfold spent, probe_cost. cbn [replicate app sum_list wire shared
      findings initial_globals length]. unfold id. lia.
Qed.

(** ** Progress: a scan that is not over can go on *)

Lemma run_sync_suspended c : forall g, suspended (run_sync c g).1.
Proof.
  induction c; simpl; intros g; try done.
  destruct (stop_scan g); auto.
Qed.

Lemma step_suspended s tid st st' :
  Forall suspended (tasks st) -> step s tid st = Some st' ->
  Forall suspended (tasks st').
Proof.
  intros Hall. unfold step.
  destruct (tasks st !! tid) as [c|]; [|done].
  destruct (resume s c) as [c1|]; [|done].
  pose proof (run_sync_suspended c1 (shared st)) as Hs.
  destruct (run_sync c1 (shared st)) as [c2 g2].
  intros [= <-]. simpl. by apply Forall_insert.
Qed.

Lemma exec_suspended evs : forall st st',
  Forall suspended (tasks st) -> exec evs st = Some st' ->
  Forall suspended (tasks st').
Proof.
  induction evs as [|[tid s] evs IH]; simpl; intros st st' Hall.
  - by intros [= <-].
  - destruct (step s tid st) as [st1|] eqn:Hstep; [|done].
    eauto using step_suspended.
Qed.

Lemma scan_suspended base_url token :
  Forall suspended (tasks (scan base_url token)).
Proof. rewrite scan_unfold. simpl. repeat constructor. Qed.

Lemma unfinished_task ts :
  Forall suspended ts -> forallb is_return ts = false ->
  exists tid c, ts !! tid = Some c /\ forall s, is_Some (resume s c).
Proof.
  induction 1 as [|c ts Hc Hts IH]; simpl; [done|].
  destruct c; simpl in *; try done.
  - intros Hrest. destruct (IH Hrest) as (tid & c & Hl & Hr).
    by exists (S tid), c.
  - intros _. exists 0. eexists. split; [done|]. intros s. by eexists.
  - intros _. exists 0. eexists. split; [done|]. intros s. by eexists.
Qed.

Lemma progress st :
  Forall suspended (tasks st) -> all_done st = false ->
  exists tid, forall s, is_Some (step s tid st).
Proof.
  intros Hall Hnot.
  destruct (unfinished_task _ Hall Hnot) as (tid & c & Hl & Hr).
  exists tid. intros s. unfold step. rewrite Hl.
  destruct (Hr s) as [c1 ->].
  destruct (run_sync c1 (shared st)). by eexists.
Qed.

Lemma run_to_end s : forall n st,
  ledger turns st n -> Forall suspended (tasks st) ->
  exists sched st',
    exec_oracle s sched st = Some st' /\ all_done st' = true.
Proof.
  induction n as [|n IH]; intros st Hl Hall;
    destruct (all_done st) eqn:Hdone;
    try (by exists [], st).
  - destruct (progress _ Hall Hdone) as (tid & Hstep).
    destruct (Hstep s) as [st1 Hst1].
    destruct (step_ledger _ _ _ _ _ _ Hl Hst1) as [Hle _]. simpl in Hle. lia.
  - destruct (progress _ Hall Hdone) as (tid & Hstep).
    destruct (Hstep s) as [st1 Hst1].
    destruct (step_ledger _ _ _ _ _ _ Hl Hst1) as [_ Hl1].
    simpl in Hl1. rewrite Nat.sub_0_r in Hl1.
    destruct (IH st1 Hl1 (step_suspended _ _ _ _ Hall Hst1))
      as (sched & st' & Hexec & Hend).
    exists (tid :: sched), st'. split; [|done].
    unfold exec_oracle in *. simpl. by rewrite Hst1.
Qed.

(** C10.  Whatever the network answers and in whatever order the tasks
    are resumed, a scan takes at most 24 turns (10 wake-ups and 14
    answers), sends at most 14 requests and records at most 14
    findings; as long as a task is unfinished some task can be
    resumed, and against every server there is a run that ends with
    all tasks finished. *)
Theorem scan_terminates_within_14_requests :
  forall base_url token,
    (forall evs st,
       exec evs (scan base_url token) = Some st ->
       length evs <= 24
       /\ length (wire st) <= 14
       /\ length (findings (shared st)) <= 14
       /\ (all_done st = true \/ exists tid, forall s, is_Some (step s tid st)))
    /\ (forall s, exists sched st,
          exec_oracle s sched (scan base_url token) = Some st
          /\ all_done st = true).
Proof.
  intros base_url token. split.
  - intros evs st Hexec.
    pose proof (exec_ledger turns _ _ _ _ (scan_ledger _ _ _) Hexec) as [Ht _].
    pose proof (exec_ledger sends _ _ _ _ (scan_ledger _ _ _) Hexec) as [_ Hs].
    pose proof (exec_ledger records _ _ _ _ (scan_ledger _ _ _) Hexec) as [_ Hr].
    apply ledger_spent in Hs, Hr. unfold spent in *. simpl in *.
    repeat split; try lia.
    destruct (all_done st) eqn:Hdone; [by left|right].
    apply progress; [|done].
    eapply exec_suspended; [|done]. apply scan_suspended.
  - intros s. eapply run_to_end;
      [apply (scan_ledger turns)|apply scan_suspended].
Qed.

(** ** A network on which every request fails *)

Lemma run_sync_quiet c : forall g,
  quiet c -> (run_sync c g).2 = g /\ quiet (run_sync c g).1.
Proof.
  induction c; simpl; intros g Hq; try done.
  destruct Hq. destruct (stop_scan g); auto.
Qed.

Lemma resume_quiet s c c1 :
  always_fails s -> quiet c -> resume s c = Some c1 -> quiet c1.
Proof.
  intros Hs. destruct c; simpl; try done.
  - by intros ? [= <-].
  - rewrite Hs. by intros ? [= <-].
Qed.

Lemma step_quiet s tid st st' :
  always_fails s -> Forall quiet (tasks st) -> step s tid st = Some st' ->
  shared st' = shared st /\ Forall quiet (tasks st').
Proof.
  intros Hs Hall. unfold step.
  destruct (tasks st !! tid) as [c|] eqn:Hc; [|done].
  destruct (resume s c) as [c1|] eqn:Hres; [|done].
  assert (quiet c1) as Hq1.
  { eapply resume_quiet; [done| |done].
    by eapply (Forall_lookup_1 _ _ _ _ Hall). }
  destruct (run_sync_quiet c1 (shared st) Hq1) as [Hg Hq2].
  destruct (run_sync c1 (shared st)) as [c2 g2]. simpl in *.
  intros [= <-]. simpl. split; [done|]. by apply Forall_insert.
Qed.

Lemma exec_quiet evs : forall st st',
  Forall (fun ev : event => always_fails ev.2) evs ->
  Forall quiet (tasks st) -> exec evs st = Some st' ->
  shared st' = shared st.
Proof.
  induction evs as [|[tid s] evs IH]; simpl; intros st st' Hevs Hall.
  - by intros [= <-].
  - destruct (step s tid st) as [st1|] eqn:Hstep; [|done]. intros Hexec.
    apply Forall_cons in Hevs as [Hs Hevs]. simpl in Hs.
    destruct (step_quiet _ _ _ _ Hs Hall Hstep) as [Hg Hall1].
    rewrite <- Hg. by apply IH.
Qed.

Lemma idor_loop_quiet base hdrs ids : quiet (idor_loop base hdrs ids).
Proof. induction ids; simpl; auto. Qed.

Lemma scan_quiet base_url token :
  Forall quiet (tasks (scan base_url token)).
Proof.
  rewrite scan_unfold. unfold termul_full_async.
  cbn [map app tasks].
  repeat (constructor; [first [by simpl|apply idor_loop_quiet]|]).
  constructor.
Qed.

Lemma exec_oracle_events s sched :
  Forall (fun ev : event => always_fails ev.2)
    (map (fun tid => (tid, s)) sched) <-> (sched = [] \/ always_fails s).
Proof.
  rewrite Forall_map. simpl. split.
  - destruct sched as [|tid sched]; [by left|].
    intros H. apply Forall_cons in H as [H _]. by right.
  - intros [->|H]; [constructor|]. by apply Forall_forall.
Qed.

(** C8.  When every request fails, however the tasks are scheduled the
    globals never change: no finding, [critical_count] 0, [stop_scan]
    false.  The scan goes on as long as a task is unfinished, takes at
    most 24 turns, and ends with every task finished. *)
Theorem failing_network_scan_is_empty :
  forall base_url token,
    (forall evs st,
       Forall (fun ev : event => always_fails ev.2) evs ->
       exec evs (scan base_url token) = Some st ->
       findings (shared st) = []
       /\ critical_count (shared st) = 0%Z
       /\ stop_scan (shared st) = false
       /\ length evs <= 24
       /\ (all_done st = true
           \/ exists tid, forall s, is_Some (step s tid st)))
    /\ (forall s, always_fails s ->
          exists sched st,
            exec_oracle s sched (scan base_url token) = Some st
            /\ all_done st = true
            /\ shared st = initial_globals).
Proof.
  intros base_url token. split.
  - intros evs st Hevs Hexec.
    rewrite (exec_quiet _ _ _ Hevs (scan_quiet _ _) Hexec).
    pose proof (exec_ledger turns _ _ _ _ (scan_ledger _ _ _) Hexec) as [Ht _].
    simpl in Ht. repeat split; try done; try lia.
    destruct (all_done st) eqn:Hdone; [by left|right].
    apply progress; [|done].
    eapply exec_suspended; [|done]. apply scan_suspended.
  - intros s Hs.
    destruct (run_to_end s _ _ (scan_ledger turns base_url token)
                (scan_suspended _ _)) as (sched & st & Hexec & Hdone).
    exists sched, st. repeat split; try done.
    unfold exec_oracle in Hexec.
    rewrite (exec_quiet _ _ _ (proj2 (exec_oracle_events s sched) (or_intror Hs))
               (scan_quiet _ _) Hexec).
    done.
Qed.

(** ** Scans that stay below the threshold *)

Lemma count_critical_perm fs fs' :
  fs ≡ₚ fs' -> count_critical fs = count_critical fs'.
Proof. unfold count_critical. by intros ->. Qed.

Section Settled.
Variable s : session.

Lemma run_sync_contrib c : forall g,
  stop_scan g = false -> I1 g ->
  count_critical (findings g ++ contrib s c) < 2 ->
  findings (run_sync c g).2 ++ contrib s (run_sync c g).1
  = findings g ++ contrib s c
  /\ stop_scan (run_sync c g).2 = false
  /\ I1 (run_sync c g).2.
Proof.
  induction c as [|d k IH|req k IH|a IHa b IHb|f k IH|x y k IH];
    simpl; intros g Hstop HI1 Hlt; try done.
  - rewrite Hstop. by apply IHb.
  - assert (findings (add_finding f g) ++ contrib s k
            = findings g ++ f :: contrib s k) as Heq
      by (simpl; by rewrite <- app_assoc).
    rewrite <- Heq in Hlt |- *.
    pose proof (add_finding_I1 f g HI1) as HI1'.
    apply IH; [|done|done].
    rewrite count_critical_app in Hlt.
    unfold I1 in HI1'. revert HI1'. simpl. intros HI1'.
    rewrite HI1', Hstop. unfold CRITICAL_STOP_THRESHOLD.
    destruct (Z.leb_spec 2
      (Z.of_nat (count_critical (findings g ++ [f])))); [|done].
    simpl in Hlt. lia.
  - by apply (IH (correlate x y g)).
Qed.

Lemma resume_contrib c c1 :
  resume s c = Some c1 -> contrib s c1 = contrib s c.
Proof. destruct c; simpl; try done; by intros [= <-]. Qed.

Lemma pending_insert ts : forall i c c',
  ts !! i = Some c ->
  pending s (<[i := c']> ts) ++ contrib s c
  ≡ₚ pending s ts ++ contrib s c'.
Proof.
  unfold pending.
  induction ts as [|a ts IH]; intros [|i] c c' Hi;
    simpl in Hi; simplify_eq; simpl.
  - generalize (concat (map (contrib s) ts)) (contrib s c) (contrib s c').
    intros l1 l2 l3. solve_Permutation.
  - rewrite <- !app_assoc. by rewrite (IH i c c' Hi).
Qed.

Lemma pending_lookup_le ts : forall i c,
  ts !! i = Some c ->
  count_critical (contrib s c) <= count_critical (pending s ts).
Proof.
  unfold pending.
  induction ts as [|a ts IH]; intros [|i] c Hi;
    simpl in Hi; simplify_eq; simpl;
    rewrite count_critical_app; [lia|].
  specialize (IH i c Hi). lia.
Qed.

Lemma step_settled total tid st st' :
  count_critical total < 2 ->
  settled s total st -> step s tid st = Some st' -> settled s total st'.
Proof.
  intros Htot (Hstop & HI1 & Hperm). unfold step.
  destruct (tasks st !! tid) as [c|] eqn:Hc; [|done].
  destruct (resume s c) as [c1|] eqn:Hres; [|done].
  pose proof (resume_contrib _ _ Hres) as Hc1.
  assert (count_critical (findings (shared st) ++ contrib s c1) < 2)
    as Hlt.
  { rewrite Hc1, count_critical_app.
    pose proof (pending_lookup_le _ _ _ Hc) as Hle.
    rewrite <- (count_critical_perm _ _ Hperm), count_critical_app in Htot.
    lia. }
  destruct (run_sync_contrib c1 (shared st) Hstop HI1 Hlt)
    as (Heq & Hstop' & HI1').
  pose proof (pending_insert _ tid c (run_sync c1 (shared st)).1 Hc) as Hins.
  destruct (run_sync c1 (shared st)) as [c2 g2]. simpl in *.
  intros [= <-]. unfold settled. simpl. repeat split; try done.
  rewrite <- Hperm.
  apply (Permutation_app_inv_r (contrib s c)).
  rewrite <- (app_assoc (findings g2)), Hins.
  transitivity ((findings g2 ++ contrib s c2) ++ pending s (tasks st)).
  { generalize (findings g2) (contrib s c2) (pending s (tasks st)).
    intros l1 l2 l3. solve_Permutation. }
  rewrite Heq, Hc1.
  generalize (findings (shared st)) (contrib s c) (pending s (tasks st)).
  intros l1 l2 l3. solve_Permutation.
Qed.

Lemma exec_oracle_settled total sched : forall st st',
  count_critical total < 2 ->
  settled s total st -> exec_oracle s sched st = Some st' ->
  settled s total st'.
Proof.
  unfold exec_oracle.
  induction sched as [|tid sched IH]; simpl; intros st st' Htot Hst.
  - by intros [= <-].
  - destruct (step s tid st) as [st1|] eqn:Hstep; [|done].
    apply IH; [done|]. by eapply step_settled.
Qed.

Lemma pending_done ts : forallb is_return ts = true -> pending s ts = [].
Proof.
  unfold pending. induction ts as [|c ts IH]; simpl; [done|].
  by destruct c.
Qed.

Lemma settled_done total st :
  settled s total st -> all_done st = true ->
  findings (shared st) ≡ₚ total
  /\ critical_count (shared st) = Z.of_nat (count_critical total)
  /\ stop_scan (shared st) = false.
Proof.
  intros (Hstop & HI1 & Hperm) Hdone.
  rewrite (pending_done _ Hdone), app_nil_r in Hperm.
  repeat split; try done.
  rewrite HI1. by rewrite (count_critical_perm _ _ Hperm).
Qed.
End Settled.

(** ** The end-to-end scenario *)

Lemma t_example_settled body :
  settled (t_example body) [admin_exposed; report_unauthenticated]
    (scan "https://t.example" "X").
Proof.
  rewrite scan_unfold. repeat split.
  vm_compute. reflexivity.
Qed.

(** C7.  Base URL [https://t.example], token [X], server [t_example]:
    the scan can be run to its end, and every run to the end, in any
    order of the tasks, leaves exactly the two findings
    EXPOSED_ROUTE/HIGH for the admin URL and MISSING_AUTH/CRITICAL for
    the internal report URL, with [critical_count = 1] and [stop_scan]
    false. *)
Theorem t_example_scan_two_findings :
  forall body,
    (exists sched st,
       exec_oracle (t_example body) sched (scan "https://t.example" "X")
       = Some st
       /\ all_done st = true)
    /\ (forall sched st,
          exec_oracle (t_example body) sched (scan "https://t.example" "X")
          = Some st ->
          all_done st = true ->
          findings (shared st) ≡ₚ [admin_exposed; report_unauthenticated]
          /\ length (findings (shared st)) = 2
          /\ critical_count (shared st) = 1%Z
          /\ stop_scan (shared st) = false).
Proof.
  intros body. split.
  - eapply run_to_end; [apply (scan_ledger turns)|apply scan_suspended].
  - intros sched st Hexec Hdone.
    assert (count_critical [admin_exposed; report_unauthenticated] < 2)
      as Htot by (vm_compute; lia).
    pose proof (exec_oracle_settled _ _ _ _ _ Htot
                  (t_example_settled body) Hexec) as Hset.
    destruct (settled_done _ _ _ Hset Hdone) as (Hperm & Hcc & Hstop).
    repeat split; try done.
    by rewrite Hperm.
Qed.

Example t_example_in_order :
  option_map (fun st => (findings (shared st), all_done st, length (wire st)))
    (exec_oracle (t_example (fun _ => EmptyString)) in_order
       (scan "https://t.example" "X"))
  = Some ([admin_exposed; report_unauthenticated], true, 14).
Proof. vm_compute. reflexivity. Qed.

(** ** The correlation graph *)

Lemma count_type_snoc t fs f :
  count_type t (fs ++ [f])
  = count_type t fs + (if String.eqb (type f) t then 1 else 0).
Proof.
  unfold count_type. rewrite filter_app, length_app, filter_cons, filter_nil.
  destruct (String.eqb_spec (type f) t); case_decide; simpl; congruence.
Qed.

Lemma replicate_snoc {A} n (x : A) : replicate n x ++ [x] = replicate (S n) x.
Proof. induction n as [|n IH]; simpl; [done|]. by rewrite IH. Qed.

Lemma graph_ok_add f g :
  impact (type f) = None -> graph_ok g -> graph_ok (add_finding f g).
Proof.
  intros Hf Hg k. simpl. rewrite Hg. unfold edges_of.
  destruct (impact k) as [label|] eqn:Hk; [|done].
  rewrite count_type_snoc.
  destruct (String.eqb_spec (type f) k) as [Heq|_];
    [rewrite Heq in Hf; congruence|].
  by rewrite Nat.add_0_r.
Qed.

Lemma graph_ok_add_correlate f label g :
  impact (type f) = Some label -> graph_ok g ->
  graph_ok (correlate (type f) label (add_finding f g)).
Proof.
  intros Hf Hg k. unfold correlate, add_finding.
  cbn [logic_graph findings]. unfold edges_of.
  destruct (decide (type f = k)) as [<-|Hne].
  - rewrite lookup_insert_eq, Hf, (Hg (type f)). unfold edges_of.
    rewrite Hf, count_type_snoc, String.eqb_refl, Nat.add_1_r.
    destruct (count_type (type f) (findings g)) as [|n]; [done|].
    simpl. by rewrite replicate_snoc.
  - rewrite lookup_insert_ne by done. rewrite (Hg k). unfold edges_of.
    destruct (impact k); [|done].
    rewrite count_type_snoc.
    destruct (String.eqb_spec (type f) k); [done|]. by rewrite Nat.add_0_r.
Qed.

Lemma run_sync_paired c :
  paired c -> forall g, graph_ok g ->
  graph_ok (run_sync c g).2 /\ paired (run_sync c g).1.
Proof.
  induction 1 as [|d k Hk IH|req k Hk IH|a b Ha IHa Hb IHb
                  |f k Hf Hk IH|f label k Hf Hk IH];
    intros g Hg; simpl.
  - split; [done|constructor].
  - split; [done|by constructor].
  - split; [done|by constructor].
  - destruct (stop_scan g); auto.
  - apply IH. by apply graph_ok_add.
  - apply IH. by apply graph_ok_add_correlate.
Qed.

Lemma resume_paired s c c1 : paired c -> resume s c = Some c1 -> paired c1.
Proof. destruct 1; simpl; try done; intros [= <-]; auto. Qed.

Lemma step_paired s tid st st' :
  graph_ok (shared st) -> Forall paired (tasks st) ->
  step s tid st = Some st' ->
  graph_ok (shared st') /\ Forall paired (tasks st').
Proof.
  intros Hg Hall. unfold step.
  destruct (tasks st !! tid) as [c|] eqn:Hc; [|done].
  destruct (resume s c) as [c1|] eqn:Hres; [|done].
  assert (paired c1) as Hp1.
  { eapply resume_paired; [|done]. by eapply (Forall_lookup_1 _ _ _ _ Hall). }
  destruct (run_sync_paired c1 Hp1 (shared st) Hg) as [Hg2 Hp2].
  destruct (run_sync c1 (shared st)) as [c2 g2]. simpl in *.
  intros [= <-]. simpl. split; [done|]. by apply Forall_insert.
Qed.

Lemma exec_paired evs : forall st st',
  graph_ok (shared st) -> Forall paired (tasks st) ->
  exec evs st = Some st' -> graph_ok (shared st').
Proof.
  induction evs as [|[tid s] evs IH]; simpl; intros st st' Hg Hall.
  - by intros [= <-].
  - destruct (step s tid st) as [st1|] eqn:Hstep; [|done].
    destruct (step_paired _ _ _ _ Hg Hall Hstep). eauto.
Qed.

Lemma idor_loop_paired base hdrs ids : paired (idor_loop base hdrs ids).
Proof.
  induction ids as [|i ids IH]; simpl; repeat constructor.
  intros o. destruct (is_200 o); [|done].
  by apply (paired_add_correlate (Finding "IDOR" _ "CRITICAL")).
Qed.

Lemma scan_paired base_url token :
  Forall paired (tasks (scan base_url token)).
Proof.
  rewrite scan_unfold. unfold termul_full_async. cbn [map app tasks].
  repeat (constructor;
    [first
       [apply paired_sleep, idor_loop_paired
       |apply paired_sleep; repeat constructor; intros o;
        destruct (is_200 o); repeat constructor;
        first [by apply (paired_add (Finding _ _ _)); [|constructor]
              |by apply (paired_add_correlate (Finding _ _ _));
                 [|constructor]]]|]).
  constructor.
Qed.

Lemma edges_of_Some fs k edges :
  edges_of fs k = Some edges ->
  exists label, impact k = Some label
                /\ edges = replicate (count_type k fs) label.
Proof.
  unfold edges_of. destruct (impact k) as [label|]; [|done].
  destruct (count_type k fs) as [|n]; [done|].
  intros [= <-]. by exists label.
Qed.

Lemma scan_graph_ok base_url token evs st :
  exec evs (scan base_url token) = Some st -> graph_ok (shared st).
Proof.
  intros Hexec. eapply exec_paired; [| |done].
  - intros k. rewrite scan_unfold. simpl. rewrite lookup_empty.
    unfold edges_of. by destruct (impact k).
  - apply scan_paired.
Qed.

(** C9.  In every state of every scan the graph has no key
    EXPOSED_ROUTE or MISSING_AUTH; each key it has is IDOR,
    PRIVILEGE_ESCALATION or WORKFLOW_BYPASS, its edge list is as long
    as there are findings of that type, and all its edges are
    DATA_DISCLOSURE, ADMIN_ACTION or FINANCIAL_IMPACT respectively.
    Conversely no edge is missing: as soon as there is a finding of
    one of these three types its key is in the graph, with one edge
    of its label per finding; so the graph is, key by key, the one
    that [edges_of] reads off the findings. *)
Theorem logic_graph_mirrors_findings :
  forall base_url token evs st,
    exec evs (scan base_url token) = Some st ->
    logic_graph (shared st) !! "EXPOSED_ROUTE" = None
    /\ logic_graph (shared st) !! "MISSING_AUTH" = None
    /\ (forall k edges,
         logic_graph (shared st) !! k = Some edges ->
         length edges = count_type k (findings (shared st))
         /\ ((k = "IDOR" /\ Forall (eq "DATA_DISCLOSURE") edges)
             \/ (k = "PRIVILEGE_ESCALATION"
                 /\ Forall (eq "ADMIN_ACTION") edges)
             \/ (k = "WORKFLOW_BYPASS"
                 /\ Forall (eq "FINANCIAL_IMPACT") edges)))
    /\ (forall k label,
          (k, label) ∈ [("IDOR", "DATA_DISCLOSURE");
                        ("PRIVILEGE_ESCALATION", "ADMIN_ACTION");
                        ("WORKFLOW_BYPASS", "FINANCIAL_IMPACT")] ->
          0 < count_type k (findings (shared st)) ->
          logic_graph (shared st) !! k
          = Some (replicate (count_type k (findings (shared st))) label))
    /\ (forall k,
          logic_graph (shared st) !! k = edges_of (findings (shared st)) k).
Proof.
  intros base_url token evs st Hexec.
  pose proof (scan_graph_ok _ _ _ _ Hexec) as Hg.
  split; [by rewrite (Hg "EXPOSED_ROUTE")|].
  split; [by rewrite (Hg "MISSING_AUTH")|].
  split; [|split; [|exact Hg]].
  2: { intros k label Hin Hpos. rewrite (Hg k). unfold edges_of.
       assert (impact k = Some label) as ->.
       { repeat (apply elem_of_cons in Hin as [[= -> ->]|Hin]; [done|]).
         by apply elem_of_nil in Hin. }
       destruct (count_type k (findings (shared st))); [lia|done]. }
  intros k edges. rewrite (Hg k). intros Hk.
  destruct (edges_of_Some _ _ _ Hk) as (label & Hlabel & ->).
  rewrite length_replicate. split; [done|].
  assert (Forall (eq label)
            (replicate (count_type k (findings (shared st))) label)) as Hall
    by (apply Forall_forall; by intros x ->%elem_of_replicate_inv).
  revert Hlabel Hall. unfold impact.
  destruct (String.eqb_spec k "IDOR") as [->|_];
    [|destruct (String.eqb_spec k "PRIVILEGE_ESCALATION") as [->|_];
      [|destruct (String.eqb_spec k "WORKFLOW_BYPASS") as [->|_]; [|done]]];
    intros [= <-] Hall; auto.
Qed.

Lemma logic_graph_mirrors_findings_witness :
  match exec_oracle wide_open (seq 0 10 ++ [6])
          (scan "https://target.com" "USER_JWT_TOKEN") with
  | Some st =>
      logic_graph (shared st) !! "EXPOSED_ROUTE" = None
      /\ logic_graph (shared st) !! "MISSING_AUTH" = None
      /\ (forall k edges,
           logic_graph (shared st) !! k = Some edges ->
           length edges = count_type k (findings (shared st))
           /\ ((k = "IDOR" /\ Forall (eq "DATA_DISCLOSURE") edges)
               \/ (k = "PRIVILEGE_ESCALATION"
                   /\ Forall (eq "ADMIN_ACTION") edges)
               \/ (k = "WORKFLOW_BYPASS"
                   /\ Forall (eq "FINANCIAL_IMPACT") edges)))
      /\ (forall k label,
            (k, label) ∈ [("IDOR", "DATA_DISCLOSURE");
                          ("PRIVILEGE_ESCALATION", "ADMIN_ACTION");
                          ("WORKFLOW_BYPASS", "FINANCIAL_IMPACT")] ->
            0 < count_type k (findings (shared st)) ->
            logic_graph (shared st) !! k
            = Some (replicate (count_type k (findings (shared st))) label))
      /\ (forall k,
            logic_graph (shared st) !! k = edges_of (findings (shared st)) k)
  | None => False
  end.
Proof.
  destruct (exec_oracle wide_open (seq 0 10 ++ [6])
              (scan "https://target.com" "USER_JWT_TOKEN"))
    as [st|] eqn:Hexec.
  - exact (logic_graph_mirrors_findings _ _ _ _ Hexec).
  - vm_compute in Hexec. discriminate Hexec.
Defined.

(** Findings recorded without their edges are told apart: globals
    with two IDOR findings and an empty graph do not have the graph
    that goes with their findings. *)
Example findings_without_edges_are_told_apart :
  let g := record_all [Finding "IDOR" "https://target.com/api/user/profile?id=1" "CRITICAL";
                       Finding "IDOR" "https://target.com/api/user/profile?id=2" "CRITICAL"] in
  logic_graph g !! "IDOR" = None
  /\ edges_of (findings g) "IDOR"
     = Some ["DATA_DISCLOSURE"; "DATA_DISCLOSURE"].
Proof. split; reflexivity. Qed.

Example wide_open_first_idor_answer :
  option_map
    (fun st => (logic_graph (shared st) !! "IDOR",
                count_type "IDOR" (findings (shared st))))
    (exec_oracle wide_open (seq 0 10 ++ [6])
       (scan "https://target.com" "USER_JWT_TOKEN"))
  = Some (Some ["DATA_DISCLOSURE"], 1).
Proof. vm_compute. reflexivity. Qed.

(** * Further properties of the code *)

(** ** The logs only grow *)

(** X1.  Recording a list of findings from the initial globals leaves
    exactly that list, in that order, as the log; the graph is not
    touched, the counter is the number of CRITICAL ones, and the stop
    flag says whether there are two of them. *)
Theorem record_all_keeps_the_log :
  forall fs,
    findings (record_all fs) = fs
    /\ logic_graph (record_all fs) = ∅
    /\ critical_count (record_all fs) = Z.of_nat (count_critical fs)
    /\ stop_scan (record_all fs) = bool_decide (2 <= count_critical fs).
Proof.
  intros fs.
  assert (findings (record_all fs) = fs /\ logic_graph (record_all fs) = ∅)
    as [Hfs Hlg].
  { induction fs as [|f fs [IH1 IH2]] using rev_ind; [done|].
    rewrite record_all_snoc. simpl. by rewrite IH1, IH2. }
  assert (I1 (record_all fs)) as H1
    by (apply (record_all_preserves I1); [done|apply add_finding_I1]).
  assert (I3 (record_all fs)) as H3
    by (apply (record_all_preserves I3); [done|apply add_finding_I3]).
  unfold I1, I3, CRITICAL_STOP_THRESHOLD in *. rewrite Hfs in H1.
  repeat split; try done.
  rewrite H3, H1.
  destruct (Z.leb_spec 2 (Z.of_nat (count_critical fs)));
    case_bool_decide; try done; lia.
Qed.

Lemma correlate_iter_lookup source target n : forall g,
  logic_graph (Nat.iter (S n) (correlate source target) g) !! source
  = Some (default [] (logic_graph g !! source) ++ replicate (S n) target).
Proof.
  induction n as [|n IH]; intros g.
  - simpl. by rewrite lookup_insert_eq.
  - change (Nat.iter (S (S n)) (correlate source target) g)
      with (correlate source target
              (Nat.iter (S n) (correlate source target) g)).
    unfold correlate at 1. cbn [logic_graph].
    rewrite lookup_insert_eq, IH. cbn [default from_option id].
    by rewrite <- app_assoc, replicate_snoc.
Qed.

(** X2.  [correlate] never deduplicates and never disturbs anything
    else: linking the same edge [n + 1] times appends [n + 1] copies of
    the target to the list of the source key (created from the empty
    list when the key is missing), every other key keeps its list, and
    the findings, the counter and the stop flag are as before. *)
Theorem correlate_appends_every_time :
  forall source target n g,
    logic_graph (Nat.iter (S n) (correlate source target) g) !! source
    = Some (default [] (logic_graph g !! source) ++ replicate (S n) target)
    /\ (forall k, k <> source ->
          logic_graph (Nat.iter (S n) (correlate source target) g) !! k
          = logic_graph g !! k)
    /\ findings (Nat.iter (S n) (correlate source target) g) = findings g
    /\ critical_count (Nat.iter (S n) (correlate source target) g)
       = critical_count g
    /\ stop_scan (Nat.iter (S n) (correlate source target) g) = stop_scan g.
Proof.
  intros source target n g. split; [apply correlate_iter_lookup|].
  induction (S n) as [|m IH]; [done|].
  destruct IH as (Hk & Hf & Hc & Hs). simpl. repeat split; try done.
  intros k Hne. rewrite lookup_insert_ne by done. by apply Hk.
Qed.

(** What a later state of the globals keeps of an earlier one. *)
Lemma grows_refl g :
  findings g `prefix_of` findings g
  /\ (critical_count g <= critical_count g)%Z
  /\ forall k, default [] (logic_graph g !! k)
               `prefix_of` default [] (logic_graph g !! k).
Proof. repeat split; try done. Qed.

Lemma add_finding_grows g0 f g :
  (findings g0 `prefix_of` findings g
   /\ (critical_count g0 <= critical_count g)%Z
   /\ forall k, default [] (logic_graph g0 !! k)
                `prefix_of` default [] (logic_graph g !! k)) ->
  findings g0 `prefix_of` findings (add_finding f g)
  /\ (critical_count g0 <= critical_count (add_finding f g))%Z
  /\ forall k, default [] (logic_graph g0 !! k)
               `prefix_of` default [] (logic_graph (add_finding f g) !! k).
Proof.
  intros (Hf & Hc & Hg). simpl. repeat split; try done.
  - by apply prefix_app_r.
  - destruct (String.eqb (risk f) "CRITICAL"); lia.
Qed.

Lemma correlate_grows g0 a b g :
  (findings g0 `prefix_of` findings g
   /\ (critical_count g0 <= critical_count g)%Z
   /\ forall k, default [] (logic_graph g0 !! k)
                `prefix_of` default [] (logic_graph g !! k)) ->
  findings g0 `prefix_of` findings (correlate a b g)
  /\ (critical_count g0 <= critical_count (correlate a b g))%Z
  /\ forall k, default [] (logic_graph g0 !! k)
               `prefix_of` default [] (logic_graph (correlate a b g) !! k).
Proof.
  intros (Hf & Hc & Hg). simpl. repeat split; try done.
  intros k. destruct (decide (a = k)) as [->|Hne].
  - rewrite lookup_insert_eq. simpl. by apply prefix_app_r.
  - by rewrite lookup_insert_ne.
Qed.

Lemma step_wire_grows s tid st st' :
  step s tid st = Some st' -> wire st `prefix_of` wire st'.
Proof.
  unfold step.
  destruct (tasks st !! tid) as [c|]; [|done].
  destruct (resume s c) as [c1|]; [|done].
  destruct (run_sync c1 (shared st)) as [c2 g2].
  intros [= <-]. simpl. by apply prefix_app_r.
Qed.

Lemma exec_wire_grows evs : forall st st',
  exec evs st = Some st' -> wire st `prefix_of` wire st'.
Proof.
  induction evs as [|[tid s] evs IH]; simpl; intros st st'.
  - by intros [= <-].
  - destruct (step s tid st) as [st1|] eqn:Hstep; [|done]. intros Hexec.
    etrans; [by eapply step_wire_grows|by apply IH].
Qed.

(** X3.  Over any run of the loop, on any tasks, nothing is ever
    removed or reordered: the earlier findings are a prefix of the
    later ones, so are the requests on the wire and the edge list of
    every key of the graph, and the counter never goes down. *)
Theorem run_only_appends :
  forall evs st st',
    exec evs st = Some st' ->
    findings (shared st) `prefix_of` findings (shared st')
    /\ wire st `prefix_of` wire st'
    /\ (critical_count (shared st) <= critical_count (shared st'))%Z
    /\ forall k, default [] (logic_graph (shared st) !! k)
                 `prefix_of` default [] (logic_graph (shared st') !! k).
Proof.
  intros evs st st' Hexec.
  pose proof (exec_preserves _ (add_finding_grows (shared st))
                (correlate_grows (shared st)) _ _ _ Hexec
                (grows_refl (shared st))) as (Hf & Hc & Hg).
  repeat split; try done. by eapply exec_wire_grows.
Qed.

Lemma run_only_appends_witness :
  match exec_oracle wide_open (seq 0 10 ++ [6]) main_scan with
  | Some st' =>
      findings (shared main_scan) `prefix_of` findings (shared st')
      /\ wire main_scan `prefix_of` wire st'
      /\ (critical_count (shared main_scan) <= critical_count (shared st'))%Z
      /\ forall k, default [] (logic_graph (shared main_scan) !! k)
                   `prefix_of` default [] (logic_graph (shared st') !! k)
  | None => False
  end.
Proof.
  destruct (exec_oracle wide_open (seq 0 10 ++ [6]) main_scan)
    as [st'|] eqn:Hexec.
  - exact (run_only_appends _ _ _ Hexec).
  - vm_compute in Hexec. discriminate Hexec.
Defined.

(** ** What counts as a positive answer *)

(** X4.  A check sees a positive answer exactly when the request came
    back with status 200 and its body could be read: a 200 whose body
    fails to read, any other status, and any failure are all
    negative. *)
Theorem positive_iff_complete_200 :
  forall s req,
    is_200 (fetched s req) = true
    <-> exists body, s req TIMEOUT = Ok (Response 200 (Ok body)).
Proof.
  intros s req.
  unfold fetched, fetch, try_except, net_bind, session_request, read_text,
    net_ret, is_200.
  destruct (s req TIMEOUT) as [[st [body|e']]|e]; simpl; split.
  - intros ->%Z.eqb_eq. by exists body.
  - intros [body' [= -> _]]. done.
  - done.
  - by intros [body' [=]].
  - done.
  - by intros [body' [=]].
Qed.

Lemma run_sync_silent c : forall g,
  silent c -> (run_sync c g).2 = g /\ silent (run_sync c g).1.
Proof.
  induction c; simpl; intros g Hq; try done.
  destruct Hq. destruct (stop_scan g); auto.
Qed.

Lemma resume_silent s c c1 :
  never_200 s -> silent c -> resume s c = Some c1 -> silent c1.
Proof.
  intros Hs. destruct c; simpl; try done.
  - by intros ? [= <-].
  - intros Hk [= <-]. apply Hk, Hs.
Qed.

Lemma step_silent s tid st st' :
  never_200 s -> Forall silent (tasks st) -> step s tid st = Some st' ->
  shared st' = shared st /\ Forall silent (tasks st').
Proof.
  intros Hs Hall. unfold step.
  destruct (tasks st !! tid) as [c|] eqn:Hc; [|done].
  destruct (resume s c) as [c1|] eqn:Hres; [|done].
  assert (silent c1) as Hq1.
  { eapply resume_silent; [done| |done].
    by eapply (Forall_lookup_1 _ _ _ _ Hall). }
  destruct (run_sync_silent c1 (shared st) Hq1) as [Hg Hq2].
  destruct (run_sync c1 (shared st)) as [c2 g2]. simpl in *.
  intros [= <-]. simpl. split; [done|]. by apply Forall_insert.
Qed.

Lemma exec_silent evs : forall st st',
  Forall (fun ev : event => never_200 ev.2) evs ->
  Forall silent (tasks st) -> exec evs st = Some st' ->
  shared st' = shared st.
Proof.
  induction evs as [|[tid s] evs IH]; simpl; intros st st' Hevs Hall.
  - by intros [= <-].
  - destruct (step s tid st) as [st1|] eqn:Hstep; [|done]. intros Hexec.
    apply Forall_cons in Hevs as [Hs Hevs]. simpl in Hs.
    destruct (step_silent _ _ _ _ Hs Hall Hstep) as [Hg Hall1].
    rewrite <- Hg. by apply IH.
Qed.

Lemma idor_loop_silent base hdrs ids : silent (idor_loop base hdrs ids).
Proof.
  induction ids; simpl; [done|]. split; [done|]. by intros o ->.
Qed.

Lemma single_probe_silent req f rest :
  silent
    (waf_guarded
       (If_stop_scan Return
          (Await_fetch req (fun o =>
             if is_200 o then Add_finding f rest else Return)))).
Proof. split; [done|]. intros o Ho. cbn beta. by rewrite Ho. Qed.

Lemma check_idor_silent base token :
  silent (waf_guarded (check_idor base token)).
Proof. apply (idor_loop_silent _ _ (seq 1 5)). Qed.

Lemma scan_silent base_url token :
  Forall silent (tasks (scan base_url token)).
Proof.
  rewrite scan_unfold. unfold termul_full_async.
  cbn [map app tasks].
  repeat (constructor;
    [first [apply single_probe_silent|apply check_idor_silent]|]).
  constructor.
Qed.

(** X5.  Only a 200 leaves a trace.  If the server never gives a
    readable 200 (it answers 403, 429, 404, 500, or fails), then
    whatever the order of the tasks the globals stay as they were at
    the start: no finding, no edge, counter 0, stop flag off.  The
    statuses of [WAF_STATUS] get no treatment of their own. *)
Theorem only_200_leaves_a_trace :
  forall base_url token evs st,
    Forall (fun ev : event => never_200 ev.2) evs ->
    exec evs (scan base_url token) = Some st ->
    shared st = initial_globals.
Proof.
  intros base_url token evs st Hevs Hexec.
  by rewrite (exec_silent _ _ _ Hevs (scan_silent _ _) Hexec).
Qed.

Lemma only_200_leaves_a_trace_witness :
  match exec_oracle waf_blocks in_order main_scan with
  | Some st => shared st = initial_globals
  | None => False
  end.
Proof.
  destruct (exec_oracle waf_blocks in_order main_scan) as [st|] eqn:Hexec.
  - refine (only_200_leaves_a_trace _ _ _ _ _ Hexec).
    apply Forall_map, Forall_forall. intros tid _ req. reflexivity.
  - vm_compute in Hexec. discriminate Hexec.
Defined.

(** ** The IDOR loop in general *)

Lemma drive_fetch s req k g :
  drive s (Await_fetch req k) g
  = ((drive s (k (fetched s req)) g).1,
     req :: (drive s (k (fetched s req)) g).2).
Proof. simpl. by destruct (drive s (k (fetched s req)) g). Qed.

Lemma drive_if s kthen kelse g :
  drive s (If_stop_scan kthen kelse) g
  = if stop_scan g then drive s kthen g else drive s kelse g.
Proof. done. Qed.

Lemma drive_add s f k g :
  drive s (Add_finding f k) g = drive s k (add_finding f g).
Proof. done. Qed.

Lemma drive_correlate s a b k g :
  drive s (Correlate a b k) g = drive s k (correlate a b g).
Proof. done. Qed.

Lemma drive_idor_loop_stopped s base hdrs ids g :
  stop_scan g = true -> drive s (idor_loop base hdrs ids) g = (g, []).
Proof. intros H. destruct ids; simpl; by rewrite ?H. Qed.

Lemma drive_idor_loop s base token : forall ids g,
  stop_scan g = false ->
  (critical_count g < CRITICAL_STOP_THRESHOLD)%Z ->
  let won := take (quota g) (idor_hits s base token ids) in
  let run := drive s (idor_loop base (bearer token) ids) g in
  findings run.1
  = findings g ++ map (fun i => idor_finding base (pretty i)) won
  /\ critical_count run.1 = (critical_count g + Z.of_nat (length won))%Z
  /\ stop_scan run.1 = bool_decide (quota g <= length won)
  /\ logic_graph run.1 !! "IDOR"
     = match won with
       | [] => logic_graph g !! "IDOR"
       | _ => Some (default [] (logic_graph g !! "IDOR")
                    ++ replicate (length won) "DATA_DISCLOSURE")
       end
  /\ exists m,
       run.2 = map (fun i => idor_request base token (pretty i)) (take m ids)
       /\ (stop_scan run.1 = false -> m = length ids).
Proof.
  unfold quota, CRITICAL_STOP_THRESHOLD.
  induction ids as [|i ids IH]; intros g Hstop Hcc.
  - cbn -[Z.to_nat]. rewrite take_nil. cbn -[Z.to_nat].
    rewrite app_nil_r, Z.add_0_r, Hstop.
    repeat split; try done.
    + case_bool_decide; [lia|done].
    + by exists 0.
  - cbn [idor_loop]. cbn zeta. rewrite drive_if, Hstop, drive_fetch.
    cbn beta. cbn [fst snd].
    fold (idor_request base token (pretty i)).
    fold (idor_finding base (pretty i)).
    unfold idor_hits. rewrite filter_cons. fold (idor_hits s base token ids).
    destruct (is_200 (fetched s (idor_request base token (pretty i))))
      eqn:Hhit; case_decide as Hdec; try (by destruct Hdec); clear Hdec.
    + (* a positive answer: one finding and one edge more *)
      rewrite drive_add, drive_correlate.
      set (g1 := correlate "IDOR" "DATA_DISCLOSURE"
                   (add_finding (idor_finding base (pretty i)) g)).
      assert (findings g1 = findings g ++ [idor_finding base (pretty i)])
        as Hf1 by done.
      assert (critical_count g1 = critical_count g + 1)%Z as Hc1 by done.
      assert (logic_graph g1 !! "IDOR"
              = Some (default [] (logic_graph g !! "IDOR")
                      ++ ["DATA_DISCLOSURE"])) as Hl1
        by (unfold g1, correlate; cbn [logic_graph add_finding];
            by rewrite lookup_insert_eq).
      destruct (Z.to_nat (2 - critical_count g)) as [|q] eqn:Hq; [lia|].
      cbn [take].
      destruct (decide (critical_count g = 1%Z)) as [Hone|Hless].
      * (* the threshold is reached: the loop ends here *)
        assert (stop_scan g1 = true) as Hs1.
        { unfold g1, correlate, add_finding, idor_finding.
          cbn [stop_scan risk critical_count]. rewrite Hone. done. }
        rewrite (drive_idor_loop_stopped _ _ _ _ _ Hs1). cbn [fst snd].
        assert (q = 0) as -> by lia. rewrite take_0. cbn [map length].
        rewrite Hf1, Hc1, Hs1, Hl1.
        repeat split; try done.
        exists 1. cbn [take]. by rewrite take_0.
      * assert (stop_scan g1 = false) as Hs1.
        { unfold g1, correlate, add_finding, idor_finding.
          cbn [stop_scan risk critical_count]. rewrite Hstop.
          unfold CRITICAL_STOP_THRESHOLD. cbn [String.eqb Ascii.eqb Bool.eqb].
          destruct (Z.leb_spec 2 (critical_count g + 1)); [lia|done]. }
        assert (critical_count g1 < 2)%Z as Hcc1 by lia.
        destruct (IH g1 Hs1 Hcc1) as (Hf & Hc & Hs & Hl & m & Hw & Hm).
        assert (Z.to_nat (2 - critical_count g1) = q) as Hq1 by lia.
        rewrite Hq1 in Hf, Hc, Hs, Hl.
        rewrite Hf, Hc, Hs, Hf1, Hc1. cbn [map length].
        repeat split.
        -- by rewrite <- app_assoc.
        -- lia.
        -- repeat case_bool_decide; try done; lia.
        -- rewrite Hl, Hl1. cbn [default from_option id].
           destruct (take q (idor_hits s base token ids)) as [|j l]; [done|].
           by rewrite <- app_assoc.
        -- exists (S m). split; [by rewrite Hw|].
           intros Hfalse. cbn [length]. f_equal. apply Hm.
           rewrite Hs. revert Hfalse.
           repeat case_bool_decide; try done; lia.
    + (* a negative answer: on to the next id *)
      destruct (IH g Hstop Hcc) as (Hf & Hc & Hs & Hl & m & Hw & Hm).
      repeat split; try done.
      exists (S m). split; [by rewrite Hw|]. intros Hfalse.
      cbn [length]. f_equal. auto.
Qed.

(** X6.  Run alone from globals whose stop flag is off, against any
    server, [check_idor] records the ids with a positive answer in
    order until the globals have their two CRITICAL findings, and no
    further: one CRITICAL IDOR finding and one edge per id it took;
    the requests it sent are those for an initial stretch of the ids 1
    to 5, the whole of it when the stop flag is still off at the
    end. *)
Theorem check_idor_records_until_threshold :
  forall s base token g,
    stop_scan g = false ->
    (critical_count g < CRITICAL_STOP_THRESHOLD)%Z ->
    let won := take (quota g) (idor_hits s base token (seq 1 5)) in
    let run := drive s (check_idor base token) g in
    findings run.1
    = findings g ++ map (fun i => idor_finding base (pretty i)) won
    /\ critical_count run.1 = (critical_count g + Z.of_nat (length won))%Z
    /\ stop_scan run.1 = bool_decide (quota g <= length won)
    /\ logic_graph run.1 !! "IDOR"
       = match won with
         | [] => logic_graph g !! "IDOR"
         | _ => Some (default [] (logic_graph g !! "IDOR")
                      ++ replicate (length won) "DATA_DISCLOSURE")
         end
    /\ exists m,
         run.2 = map (fun i => idor_request base token (pretty i))
                   (take m (seq 1 5))
         /\ (stop_scan run.1 = false -> m = 5).
Proof.
  intros s base token g Hstop Hcc.
  apply (drive_idor_loop s base token (seq 1 5) g Hstop Hcc).
Qed.

Lemma check_idor_records_until_threshold_witness :
  let s := objects "https://target.com/api/user/profile" [2; 3; 5] in
  let base := "https://target.com/api/user/profile" in
  let run := drive s (check_idor base USER_TOKEN) initial_globals in
  stop_scan initial_globals = false
  /\ idor_hits s base USER_TOKEN (seq 1 5) = [2; 3; 5]
  /\ findings run.1 = [idor_finding base "2"; idor_finding base "3"]
  /\ length run.2 = 3.
Proof.
  split; [reflexivity|]. split; [vm_compute; reflexivity|].
  pose proof (check_idor_records_until_threshold
                (objects "https://target.com/api/user/profile" [2; 3; 5])
                "https://target.com/api/user/profile" USER_TOKEN
                initial_globals eq_refl eq_refl)
    as (Hf & _ & _ & _ & m & Hw & _).
  split; [rewrite Hf; vm_compute; reflexivity|vm_compute; reflexivity].
Defined.

(** ** After the stop flag, no new request *)

Lemma guard_weaken c : guard true c -> guard false c.
Proof. induction c; simpl; try done. intros [? ?]. auto. Qed.

Lemma run_sync_guard_lax c : forall g,
  guard false c -> guard false (run_sync c g).1.
Proof.
  induction c; simpl; intros g Hc; try done; auto.
  destruct Hc. destruct (stop_scan g); auto.
Qed.

Lemma run_sync_guard_strict c : forall g,
  stop_scan g = true -> guard true c ->
  issued (run_sync c g).1 = [] /\ guard false (run_sync c g).1.
Proof.
  induction c; simpl; intros g Hstop Hc; try done.
  - destruct Hc as [Ha _]. rewrite Hstop. auto.
  - apply IHc; [by apply add_finding_stop_scan|done].
  - by apply IHc.
Qed.

Lemma resume_guard s c c1 :
  guard false c -> resume s c = Some c1 -> guard true c1.
Proof. destruct c; simpl; try done; intros Hc [= <-]; auto. Qed.

Lemma step_guard s tid st st' :
  Forall (guard false) (tasks st) -> step s tid st = Some st' ->
  Forall (guard false) (tasks st')
  /\ (stop_scan (shared st) = true -> wire st' = wire st).
Proof.
  intros Hall. unfold step.
  destruct (tasks st !! tid) as [c|] eqn:Hc; [|done].
  destruct (resume s c) as [c1|] eqn:Hres; [|done].
  assert (guard true c1) as Hc1.
  { eapply resume_guard; [|done]. by eapply (Forall_lookup_1 _ _ _ _ Hall). }
  pose proof (run_sync_guard_lax c1 (shared st) (guard_weaken _ Hc1)) as Hlax.
  pose proof (fun H => run_sync_guard_strict c1 (shared st) H Hc1) as Hstrict.
  destruct (run_sync c1 (shared st)) as [c2 g2]. simpl in *.
  intros [= <-]. simpl. split; [by apply Forall_insert|].
  intros Hstop. destruct (Hstrict Hstop) as [-> _]. by rewrite app_nil_r.
Qed.

Lemma exec_guard evs : forall st st',
  Forall (guard false) (tasks st) -> exec evs st = Some st' ->
  Forall (guard false) (tasks st')
  /\ (stop_scan (shared st) = true -> wire st' = wire st).
Proof.
  induction evs as [|[tid s] evs IH]; simpl; intros st st' Hall.
  - by intros [= <-].
  - destruct (step s tid st) as [st1|] eqn:Hstep; [|done]. intros Hexec.
    destruct (step_guard _ _ _ _ Hall Hstep) as [Hall1 Hw1].
    destruct (IH _ _ Hall1 Hexec) as [Hall' Hw'].
    split; [done|]. intros Hstop.
    rewrite Hw', Hw1; try done.
    eapply (step_preserves (fun g => stop_scan g = true)
              add_finding_stop_scan (fun _ _ _ H => H)); done.
Qed.

Lemma idor_loop_guard base hdrs ids : guard true (idor_loop base hdrs ids).
Proof.
  induction ids as [|i ids IH]; simpl; [done|]. split; [done|].
  intros o. by destruct (is_200 o).
Qed.

Lemma single_probe_guard req f rest :
  guard true rest ->
  guard false
    (waf_guarded
       (If_stop_scan Return
          (Await_fetch req (fun o =>
             if is_200 o then Add_finding f rest else Return)))).
Proof. intros Hrest. split; [done|]. intros o. by destruct (is_200 o). Qed.

Lemma scan_guard base_url token :
  Forall (guard false) (tasks (scan base_url token)).
Proof.
  rewrite scan_unfold. unfold termul_full_async.
  cbn [map app tasks].
  repeat (constructor;
    [first [by apply single_probe_guard
           |apply (idor_loop_guard _ _ (seq 1 5))]|]).
  constructor.
Qed.

(** X7.  Once a state of a scan has the stop flag up, no request is
    sent any more, whatever tasks are resumed and whatever the pending
    requests answer: the wire stays as it is. *)
Theorem no_request_after_stop :
  forall base_url token evs st evs' st',
    exec evs (scan base_url token) = Some st ->
    stop_scan (shared st) = true ->
    exec evs' st = Some st' ->
    wire st' = wire st.
Proof.
  intros base_url token evs st evs' st' Hexec Hstop Hexec'.
  destruct (exec_guard _ _ _ (scan_guard base_url token) Hexec) as [Hall _].
  by destruct (exec_guard _ _ _ Hall Hexec') as [_ ->].
Qed.

Lemma no_request_after_stop_witness :
  match exec_oracle wide_open [4; 5; 4; 5] main_scan with
  | Some st =>
      stop_scan (shared st) = true
      /\ match exec_oracle wide_open [0; 1; 2; 3; 6; 7; 8; 9] st with
         | Some st' => wire st' = wire st
         | None => False
         end
  | None => False
  end.
Proof.
  destruct (exec_oracle wide_open [4; 5; 4; 5] main_scan) as [st|] eqn:H1;
    [|vm_compute in H1; discriminate H1].
  pose proof H1 as H1c. vm_compute in H1c. injection H1c as Hst.
  assert (stop_scan (shared st) = true) as Hstop
    by (rewrite <- Hst; reflexivity).
  split; [done|].
  destruct (exec_oracle wide_open [0; 1; 2; 3; 6; 7; 8; 9] st)
    as [st'|] eqn:H2.
  - exact (no_request_after_stop _ _ _ _ _ _ H1 Hstop H2).
  - rewrite <- Hst in H2. vm_compute in H2. discriminate H2.
Defined.

(** ** The requests of a scan *)

Lemma concat_insert_perm {A} (ls : list (list A)) : forall i l l',
  ls !! i = Some l ->
  concat (<[i := l']> ls) ++ l ≡ₚ concat ls ++ l'.
Proof.
  induction ls as [|a ls IH]; intros [|i] l l' Hi;
    simpl in Hi; simplify_eq; simpl.
  - generalize (concat ls). intros l1. solve_Permutation.
  - rewrite <- !app_assoc. by rewrite (IH i l l' Hi).
Qed.

Lemma run_sync_follows c : forall g plan,
  follows c plan -> follows (run_sync c g).1 plan.
Proof.
  induction c; simpl; intros g plan Hc; try done; auto.
  destruct Hc. destruct (stop_scan g); auto.
Qed.

Lemma resume_follows s c c1 plan :
  parked_follows c plan -> resume s c = Some c1 -> follows c1 plan.
Proof. destruct c; simpl; try done; intros Hc [= <-]; auto. Qed.

Lemma follows_parked c plan :
  follows c plan ->
  exists plan', plan = issued c ++ plan' /\ parked_follows c plan'.
Proof.
  destruct c; simpl; try (by exists plan).
  destruct plan as [|req' plan]; [done|].
  intros [<- Hk]. by exists plan.
Qed.

Lemma step_follows total s tid st st' :
  (exists plans, Forall2 parked_follows (tasks st) plans
                 /\ wire st ++ concat plans ≡ₚ total) ->
  step s tid st = Some st' ->
  exists plans, Forall2 parked_follows (tasks st') plans
                /\ wire st' ++ concat plans ≡ₚ total.
Proof.
  intros (plans & Hall & Hperm). unfold step.
  destruct (tasks st !! tid) as [c|] eqn:Hc; [|done].
  destruct (resume s c) as [c1|] eqn:Hres; [|done].
  destruct (Forall2_lookup_l _ _ _ _ _ Hall Hc) as (plan & Hplan & Hpark).
  pose proof (run_sync_follows c1 (shared st) plan
                (resume_follows _ _ _ _ Hpark Hres)) as Hc2.
  destruct (run_sync c1 (shared st)) as [c2 g2]. simpl in *.
  destruct (follows_parked _ _ Hc2) as (plan' & -> & Hpark').
  intros [= <-]. simpl.
  exists (<[tid := plan']> plans). split; [by apply Forall2_insert|].
  rewrite <- Hperm.
  pose proof (concat_insert_perm plans tid _ plan' Hplan) as Hins.
  apply (Permutation_app_inv_r (issued c2 ++ plan')).
  transitivity ((wire st ++ issued c2)
                ++ (concat (<[tid := plan']> plans) ++ (issued c2 ++ plan'))).
  { generalize (wire st) (issued c2) (concat (<[tid := plan']> plans)) plan'.
    intros l1 l2 l3 l4. solve_Permutation. }
  rewrite Hins.
  generalize (wire st) (issued c2) (concat plans) plan'.
  intros l1 l2 l3 l4. solve_Permutation.
Qed.

Lemma exec_follows total evs : forall st st',
  (exists plans, Forall2 parked_follows (tasks st) plans
                 /\ wire st ++ concat plans ≡ₚ total) ->
  exec evs st = Some st' ->
  exists plans, Forall2 parked_follows (tasks st') plans
                /\ wire st' ++ concat plans ≡ₚ total.
Proof.
  induction evs as [|[tid s] evs IH]; simpl; intros st st' Hst.
  - by intros [= <-].
  - destruct (step s tid st) as [st1|] eqn:Hstep; [|done].
    apply IH. by eapply step_follows.
Qed.

Lemma idor_loop_follows base token ids :
  follows (idor_loop base (bearer token) ids)
    (map (fun i => idor_request base token (pretty i)) ids).
Proof.
  induction ids as [|i ids IH]; simpl; [done|]. split; [done|].
  split; [done|]. intros o. by destruct (is_200 o).
Qed.

Lemma single_probe_follows req f rest :
  follows rest [] ->
  parked_follows
    (waf_guarded
       (If_stop_scan Return
          (Await_fetch req (fun o =>
             if is_200 o then Add_finding f rest else Return))))
    [req].
Proof.
  intros Hrest. split; [done|]. split; [done|].
  intros o. by destruct (is_200 o).
Qed.

Lemma scan_follows base_url token :
  exists plans,
    Forall2 parked_follows (tasks (scan base_url token)) plans
    /\ wire (scan base_url token) ++ concat plans
       ≡ₚ planned_requests base_url token.
Proof.
  rewrite scan_unfold. unfold termul_full_async, planned_requests.
  cbn [map app tasks wire].
  eexists [_; _; _; _; _; _; _; _; _; _]. split.
  - repeat (constructor;
      [first [by apply single_probe_follows
             |apply (idor_loop_follows _ _ (seq 1 5))]|]).
    constructor.
  - cbn [concat app map seq]. done.
Qed.

Lemma prefix_append a b : String.prefix a (a +:+ b) = true.
Proof.
  induction a as [|x a IH]; simpl; [by destruct b|].
  by destruct (Ascii.ascii_dec x x).
Qed.

Lemma prefix_append_l a : forall b c,
  String.prefix a b = true -> String.prefix a (b +:+ c) = true.
Proof.
  induction a as [|x a IH]; intros [|y b] c; simpl; try done.
  - by destruct c.
  - destruct (Ascii.ascii_dec x y); [apply IH|done].
Qed.

(** X8.  Whatever the server does and however the tasks are
    scheduled, the requests a scan has sent are a sub-multiset of its
    fixed battery of 14: every planned request goes out at most once
    and nothing else is ever sent.  In particular every request goes
    to a URL that extends the base URL. *)
Theorem scan_sends_only_its_battery :
  forall base_url token evs st,
    exec evs (scan base_url token) = Some st ->
    wire st ⊆+ planned_requests base_url token
    /\ Forall (fun req => String.prefix base_url (url req) = true) (wire st).
Proof.
  intros base_url token evs st Hexec.
  destruct (exec_follows _ _ _ _ (scan_follows base_url token) Hexec)
    as (plans & _ & Hperm).
  assert (wire st ⊆+ planned_requests base_url token) as Hsub.
  { rewrite <- Hperm. by apply submseteq_inserts_r. }
  split; [done|].
  apply Forall_forall. intros req Hreq.
  apply (elem_of_submseteq _ _ _ Hreq) in Hsub.
  unfold planned_requests in Hsub. cbn [map app seq] in Hsub.
  unfold idor_request in Hsub.
  repeat (apply elem_of_cons in Hsub as [->|Hsub];
          [cbn [url];
           first [apply prefix_append
                 |apply prefix_append_l, prefix_append]|]).
  by apply elem_of_nil in Hsub.
Qed.

Lemma scan_sends_only_its_battery_witness :
  match exec_oracle wide_open (seq 0 10 ++ seq 0 10) main_scan with
  | Some st =>
      wire st ⊆+ planned_requests TARGET USER_TOKEN
      /\ Forall (fun req => String.prefix TARGET (url req) = true) (wire st)
  | None => False
  end.
Proof.
  destruct (exec_oracle wide_open (seq 0 10 ++ seq 0 10) main_scan)
    as [st|] eqn:Hexec.
  - exact (scan_sends_only_its_battery _ _ _ _ Hexec).
  - vm_compute in Hexec. discriminate Hexec.
Defined.

(** ** Where the findings come from *)

Lemma run_sync_traced c : forall g last urls,
  traced last c ->
  (forall u, last = Some u -> u ∈ urls) ->
  Forall (finding_traced urls) (findings g) ->
  Forall (finding_traced urls) (findings (run_sync c g).2)
  /\ traced last (run_sync c g).1.
Proof.
  induction c as [|d k IH|req k IH|a IHa b IHb|f k IH|x y k IH];
    simpl; intros g last urls Hc Hlast Hfs; try done.
  - destruct Hc. destruct (stop_scan g); auto.
  - destruct Hc as (Hend & Hcl & Hk). apply IH; [done|done|].
    simpl. apply Forall_app. split; [done|].
    apply Forall_singleton. split; [done|]. by apply Hlast.
  - by apply (IH (correlate x y g)).
Qed.

Lemma task_traced_mono urls urls' c :
  urls ⊆ urls' -> task_traced urls c -> task_traced urls' c.
Proof.
  intros Hsub (last & Hlast & Hc & Hiss). exists last.
  repeat split; [by intros u Hu; apply Hsub, Hlast|done|].
  eapply Forall_impl; [done|]. intros req Hreq. by apply Hsub.
Qed.

Lemma finding_traced_mono urls urls' f :
  urls ⊆ urls' -> finding_traced urls f -> finding_traced urls' f.
Proof. intros Hsub [Hcl Hend]. split; [done|by apply Hsub]. Qed.

Lemma step_traced s tid st st' :
  Forall (task_traced (map url (wire st))) (tasks st) ->
  Forall (finding_traced (map url (wire st))) (findings (shared st)) ->
  step s tid st = Some st' ->
  Forall (task_traced (map url (wire st'))) (tasks st')
  /\ Forall (finding_traced (map url (wire st'))) (findings (shared st')).
Proof.
  intros Hall Hfs. unfold step.
  destruct (tasks st !! tid) as [c|] eqn:Hc; [|done].
  destruct (resume s c) as [c1|] eqn:Hres; [|done].
  assert (exists last, (forall u, last = Some u -> u ∈ map url (wire st))
                       /\ traced last c1) as (last & Hlast & Hc1).
  { destruct (Forall_lookup_1 _ _ _ _ Hall Hc) as (last & Hlast & Htr & Hiss).
    destruct c; simpl in Hres; simplify_eq.
    - by exists last.
    - exists (Some (url req)). split; [|by apply Htr].
      intros u [= <-]. simpl in Hiss. by inversion Hiss. }
  destruct (run_sync_traced c1 (shared st) last _ Hc1 Hlast Hfs)
    as [Hfs2 Hc2].
  destruct (run_sync c1 (shared st)) as [c2 g2]. simpl in *.
  intros [= <-]. simpl.
  assert (map url (wire st) ⊆ map url (wire st ++ issued c2)) as Hsub.
  { rewrite map_app. intros u Hu. apply elem_of_app. by left. }
  split.
  - apply Forall_insert.
    + eapply Forall_impl; [done|]. intros c'. by apply task_traced_mono.
    + exists last. repeat split; [by intros u Hu; apply Hsub, Hlast|done|].
      apply Forall_forall. intros req Hreq.
      rewrite map_app. apply elem_of_app. right.
      by apply list_elem_of_fmap_2.
  - eapply Forall_impl; [done|]. intros f. by apply finding_traced_mono.
Qed.

Lemma exec_traced evs : forall st st',
  Forall (task_traced (map url (wire st))) (tasks st) ->
  Forall (finding_traced (map url (wire st))) (findings (shared st)) ->
  exec evs st = Some st' ->
  Forall (finding_traced (map url (wire st'))) (findings (shared st')).
Proof.
  induction evs as [|[tid s] evs IH]; simpl; intros st st' Hall Hfs.
  - by intros [= <-].
  - destruct (step s tid st) as [st1|] eqn:Hstep; [|done].
    destruct (step_traced _ _ _ _ Hall Hfs Hstep). eauto.
Qed.

Lemma idor_loop_traced base hdrs ids last :
  traced last (idor_loop base hdrs ids).
Proof.
  revert last. induction ids as [|i ids IH]; intros last; simpl; [done|].
  split; [done|]. intros o. destruct (is_200 o); [|by apply IH].
  repeat split; try done. apply IH.
Qed.

Lemma single_probe_traced urls t r k :
  risk_of t = Some r -> (forall last, traced last k) ->
  forall method url headers json,
    task_traced urls
      (waf_guarded
         (If_stop_scan Return
            (Await_fetch (Request method url headers json) (fun o =>
               if is_200 o then Add_finding (Finding t url r) k
               else Return)))).
Proof.
  intros Hr Hk method url headers json. exists None.
  repeat split; try done.
  intros o. destruct (is_200 o); [|done]. by repeat split.
Qed.

Lemma scan_traced base_url token urls :
  Forall (task_traced urls) (tasks (scan base_url token)).
Proof.
  rewrite scan_unfold. unfold termul_full_async.
  cbn [map app tasks].
  repeat (constructor;
    [first [by apply single_probe_traced
           |exists None; repeat split; try done;
            apply (idor_loop_traced _ _ (seq 1 5))]|]).
  constructor.
Qed.

(** X9.  In every state of a scan every finding is one of the five
    kinds with the risk of its kind (EXPOSED_ROUTE and WORKFLOW_BYPASS
    are HIGH, MISSING_AUTH, IDOR and PRIVILEGE_ESCALATION are
    CRITICAL), and its endpoint is the URL of a request that was
    sent. *)
Theorem findings_are_classified_and_requested :
  forall base_url token evs st,
    exec evs (scan base_url token) = Some st ->
    Forall (fun f => risk_of (type f) = Some (risk f)
                     /\ endpoint f ∈ map url (wire st))
      (findings (shared st)).
Proof.
  intros base_url token evs st Hexec.
  eapply (exec_traced _ _ _ (scan_traced _ _ _) _ Hexec).
Unshelve.
  rewrite scan_unfold. constructor.
Qed.

Lemma findings_are_classified_and_requested_witness :
  match exec_oracle wide_open (seq 0 10 ++ seq 0 10) main_scan with
  | Some st =>
      Forall (fun f => risk_of (type f) = Some (risk f)
                       /\ endpoint f ∈ map url (wire st))
        (findings (shared st))
  | None => False
  end.
Proof.
  destruct (exec_oracle wide_open (seq 0 10 ++ seq 0 10) main_scan)
    as [st|] eqn:Hexec.
  - exact (findings_are_classified_and_requested _ _ _ _ Hexec).
  - vm_compute in Hexec. discriminate Hexec.
Defined.

(** ** At most two IDOR findings *)

Lemma exec_app evs1 : forall evs2 st,
  exec (evs1 ++ evs2) st
  = match exec evs1 st with
    | Some st1 => exec evs2 st1
    | None => None
    end.
Proof.
  induction evs1 as [|[tid s] evs1 IH]; simpl; intros evs2 st; [done|].
  destruct (step s tid st); [apply IH|done].
Qed.

Lemma classified_idor_le fs :
  Forall classified fs -> count_type "IDOR" fs <= count_critical fs.
Proof.
  induction 1 as [|f fs Hf Hfs IH]; [done|].
  change (f :: fs) with ([f] ++ fs).
  unfold count_type, count_critical in *. rewrite !filter_app, !length_app.
  rewrite !filter_cons, !filter_nil.
  unfold classified, risk_of in Hf.
  repeat case_decide; simpl; try lia.
  match goal with H : type f = _ |- _ => rewrite H in Hf end.
  simpl in Hf. congruence.
Qed.

Lemma scan_sane base_url token evs st :
  exec evs (scan base_url token) = Some st -> sane (shared st).
Proof.
  intros Hexec. repeat split.
  - apply (exec_preserves I1 add_finding_I1 correlate_I1 _ _ _ Hexec).
    apply scan_I1.
  - apply (exec_preserves I3 add_finding_I3 correlate_I3 _ _ _ Hexec).
    by rewrite scan_unfold.
  - apply classified_idor_le.
    assert (Forall (finding_traced (map url (wire st))) (findings (shared st)))
      as Hfs.
    { eapply (exec_traced _ _ _ (scan_traced _ _ _) _ Hexec). }
    eapply Forall_impl; [done|]. by intros f [? _].
Unshelve.
  rewrite scan_unfold. constructor.
Qed.

Lemma sane_below g :
  sane g -> stop_scan g = false -> count_type "IDOR" (findings g) <= 1.
Proof.
  intros (H1 & H3 & Hle) Hstop.
  unfold I1, I3, CRITICAL_STOP_THRESHOLD in *. rewrite Hstop in H3.
  symmetry in H3. apply Z.leb_gt in H3. lia.
Qed.

Lemma sane_idor_hit base id g :
  sane g ->
  sane (correlate "IDOR" "DATA_DISCLOSURE"
          (add_finding (Finding "IDOR" (base +:+ "?id=" +:+ id) "CRITICAL") g)).
Proof.
  intros (H1 & H3 & Hle). repeat split.
  - by apply correlate_I1, add_finding_I1.
  - by apply correlate_I3, add_finding_I3.
  - cbn [correlate add_finding findings].
    rewrite count_type_snoc, count_critical_app, count_critical_one.
    cbn [type risk]. simpl. lia.
Qed.

Lemma run_sync_no_idor c : forall g,
  no_idor c ->
  count_type "IDOR" (findings (run_sync c g).2)
  = count_type "IDOR" (findings g)
  /\ no_idor (run_sync c g).1.
Proof.
  induction c as [|d k IH|req k IH|a IHa b IHb|f k IH|x y k IH];
    simpl; intros g Hc; try done.
  - destruct Hc. destruct (stop_scan g); auto.
  - destruct Hc as [Hf Hk].
    destruct (IH (add_finding f g) Hk) as [-> Hk']. split; [|done].
    cbn [add_finding findings]. rewrite count_type_snoc.
    destruct (String.eqb_spec (type f) "IDOR"); [done|lia].
  - by apply (IH (correlate x y g)).
Qed.

Lemma resume_no_idor s c c1 :
  no_idor c -> resume s c = Some c1 -> no_idor c1.
Proof. destruct c; simpl; try done; intros Hc [= <-]; auto. Qed.

Lemma run_sync_idor_loop base hdrs ids g :
  sane g ->
  (run_sync (idor_loop base hdrs ids) g).2 = g
  /\ ((run_sync (idor_loop base hdrs ids) g).1 = Return
      \/ (idor_armed base hdrs (run_sync (idor_loop base hdrs ids) g).1
          /\ count_type "IDOR" (findings g) <= 1)).
Proof.
  intros Hsane. destruct ids as [|i ids]; [by split; [|left]|].
  cbn [idor_loop run_sync]. destruct (stop_scan g) eqn:Hstop.
  - by split; [|left].
  - cbn [run_sync fst snd]. split; [done|]. right. split.
    + by exists i, ids.
    + by apply sane_below.
Qed.

Lemma step_idor_task base hdrs s c c1 g :
  sane g ->
  count_type "IDOR" (findings g) <= 2 ->
  idor_task base hdrs (count_type "IDOR" (findings g)) c ->
  resume s c = Some c1 ->
  idor_task base hdrs (count_type "IDOR" (findings (run_sync c1 g).2))
    (run_sync c1 g).1
  /\ count_type "IDOR" (findings (run_sync c1 g).2) <= 2.
Proof.
  intros Hsane Hn [->|[[ids ->]|[(i & ids & Harmed) Hle]]] Hres.
  - done.
  - simpl in Hres. injection Hres as <-.
    destruct (run_sync_idor_loop base hdrs ids g Hsane) as [-> Hshape].
    split; [|done]. destruct Hshape as [->|?]; [by left|by right; right].
  - cbn [idor_loop] in Harmed. injection Harmed as <-.
    simpl in Hres. injection Hres as <-.
    destruct (is_200 _).
    + cbn [run_sync].
      set (g1 := correlate "IDOR" "DATA_DISCLOSURE" (add_finding _ g)).
      assert (sane g1) as Hsane1 by by apply sane_idor_hit.
      assert (count_type "IDOR" (findings g1)
              = S (count_type "IDOR" (findings g))) as Hn1.
      { unfold g1. cbn [correlate add_finding findings].
        rewrite count_type_snoc. cbn [type]. simpl. lia. }
      destruct (run_sync_idor_loop base hdrs ids g1 Hsane1) as [-> Hshape].
      split; [|lia]. destruct Hshape as [->|?]; [by left|by right; right].
    + destruct (run_sync_idor_loop base hdrs ids g Hsane) as [-> Hshape].
      split; [|done]. destruct Hshape as [->|?]; [by left|by right; right].
Qed.

Lemma step_idor_invariant base hdrs s tid st st' :
  sane (shared st) -> idor_invariant base hdrs st ->
  step s tid st = Some st' -> idor_invariant base hdrs st'.
Proof.
  intros Hsane ((c6 & H6 & Htask) & Hothers & Hn). unfold step.
  destruct (tasks st !! tid) as [c|] eqn:Hc; [|done].
  destruct (resume s c) as [c1|] eqn:Hres; [|done].
  destruct (decide (tid = 6)) as [->|Hne].
  - rewrite H6 in Hc. injection Hc as <-.
    destruct (step_idor_task _ _ _ _ _ _ Hsane Hn Htask Hres) as [Htask' Hn'].
    destruct (run_sync c1 (shared st)) as [c2 g2]. simpl in *.
    intros [= <-]. unfold idor_invariant. simpl. split; [|split; [|done]].
    + exists c2. split; [|done]. apply list_lookup_insert_eq.
      by eapply lookup_lt_Some.
    + intros i c' Hi. rewrite list_lookup_insert_ne by done. by apply Hothers.
  - pose proof (resume_no_idor _ _ _ (Hothers _ _ Hne Hc) Hres) as Hc1.
    destruct (run_sync_no_idor c1 (shared st) Hc1) as [Hcount Hc2].
    destruct (run_sync c1 (shared st)) as [c2 g2]. simpl in *.
    intros [= <-]. unfold idor_invariant. simpl. rewrite Hcount.
    split; [|split; [|done]].
    + exists c6. split; [|done]. by rewrite list_lookup_insert_ne.
    + intros i c' Hi. destruct (decide (tid = i)) as [->|Hti].
      * rewrite list_lookup_insert_eq by by eapply lookup_lt_Some.
        by intros [= <-].
      * rewrite list_lookup_insert_ne by done. by apply Hothers.
Qed.

Lemma single_probe_no_idor req f rest :
  type f <> "IDOR" -> no_idor rest ->
  no_idor
    (waf_guarded
       (If_stop_scan Return
          (Await_fetch req (fun o =>
             if is_200 o then Add_finding f rest else Return)))).
Proof.
  intros Hf Hrest. split; [done|]. intros o. by destruct (is_200 o).
Qed.

Lemma scan_idor_invariant base_url token :
  idor_invariant (base_url +:+ "/api/user/profile") (bearer token)
    (scan base_url token).
Proof.
  rewrite scan_unfold. unfold termul_full_async, idor_invariant.
  cbn [map app tasks shared]. split; [|split].
  - eexists. split; [done|]. right; left. by exists (seq 1 5).
  - intros i c Hi Hc.
    do 10 (destruct i as [|i];
           [simpl in Hc; simplify_eq;
            first [done|by apply single_probe_no_idor]|]).
    done.
  - cbn [initial_globals findings]. unfold count_type.
    rewrite filter_nil. cbn [length]. lia.
Qed.

Lemma exec_idor_invariant base_url token evs : forall evs0 st st',
  exec evs0 (scan base_url token) = Some st ->
  idor_invariant (base_url +:+ "/api/user/profile") (bearer token) st ->
  exec evs st = Some st' ->
  idor_invariant (base_url +:+ "/api/user/profile") (bearer token) st'.
Proof.
  induction evs as [|[tid s] evs IH]; simpl; intros evs0 st st' Hreach Hinv.
  - by intros [= <-].
  - destruct (step s tid st) as [st1|] eqn:Hstep; [|done].
    apply (IH (evs0 ++ [(tid, s)]) st1).
    + rewrite exec_app, Hreach. simpl. by rewrite Hstep.
    + eapply step_idor_invariant; [|done|done]. by eapply scan_sane.
Qed.

(** X10.  Whatever the server answers and however the tasks are
    scheduled, a scan records at most two IDOR findings, and so at
    most two IDOR -> DATA_DISCLOSURE edges: the loop asks for the next
    id only while fewer than two CRITICAL findings are known. *)
Theorem at_most_two_idor_findings :
  forall base_url token evs st,
    exec evs (scan base_url token) = Some st ->
    count_type "IDOR" (findings (shared st)) <= 2
    /\ forall edges,
         logic_graph (shared st) !! "IDOR" = Some edges -> length edges <= 2.
Proof.
  intros base_url token evs st Hexec.
  assert (count_type "IDOR" (findings (shared st)) <= 2) as Hn.
  { eapply (exec_idor_invariant base_url token evs [] _ _ eq_refl
              (scan_idor_invariant _ _) Hexec). }
  split; [done|]. intros edges Hedges.
  rewrite (scan_graph_ok _ _ _ _ Hexec "IDOR") in Hedges.
  destruct (edges_of_Some _ _ _ Hedges) as (label & _ & ->).
  by rewrite length_replicate.
Qed.

Lemma at_most_two_idor_findings_witness :
  match exec_oracle wide_open [6; 6; 6] main_scan with
  | Some st =>
      count_type "IDOR" (findings (shared st)) <= 2
      /\ forall edges,
           logic_graph (shared st) !! "IDOR" = Some edges ->
           length edges <= 2
  | None => False
  end.
Proof.
  destruct (exec_oracle wide_open [6; 6; 6] main_scan) as [st|] eqn:Hexec.
  - exact (at_most_two_idor_findings _ _ _ _ Hexec).
  - vm_compute in Hexec. discriminate Hexec.
Defined.

(** ** Below the threshold the whole battery runs *)

Lemma add_finding_below f g rest :
  stop_scan g = false -> I1 g ->
  count_critical (findings g ++ f :: rest) < 2 ->
  stop_scan (add_finding f g) = false
  /\ I1 (add_finding f g)
  /\ count_critical (findings (add_finding f g) ++ rest) < 2.
Proof.
  intros Hstop HI1 Hlt.
  pose proof (add_finding_I1 f g HI1) as HI1'.
  assert (findings (add_finding f g) ++ rest = findings g ++ f :: rest)
    as Heq by (simpl; by rewrite <- app_assoc).
  rewrite Heq. repeat split; try done.
  unfold I1 in HI1'. revert HI1'. simpl. intros ->. rewrite Hstop.
  rewrite (count_critical_app (findings g) (f :: rest)) in Hlt.
  change (f :: rest) with ([f] ++ rest) in Hlt.
  rewrite (count_critical_app [f] rest) in Hlt.
  rewrite count_critical_app. unfold CRITICAL_STOP_THRESHOLD.
  destruct (Z.leb_spec 2
    (Z.of_nat (count_critical (findings g) + count_critical [f])));
    [lia|done].
Qed.

Lemma run_sync_asks s c : forall g,
  stop_scan g = false -> I1 g ->
  count_critical (findings g ++ contrib s c) < 2 ->
  asks s (run_sync c g).1 = asks s c.
Proof.
  induction c as [|d k IH|req k IH|a IHa b IHb|f k IH|x y k IH];
    simpl; intros g Hstop HI1 Hlt; try done.
  - rewrite Hstop. by apply IHb.
  - destruct (add_finding_below f g _ Hstop HI1 Hlt) as (? & ? & ?).
    by apply IH.
  - by apply (IH (correlate x y g)).
Qed.

Lemma resume_asks s c c1 :
  resume s c = Some c1 -> asks s c1 = parked_asks s c.
Proof. destruct c; simpl; try done; by intros [= <-]. Qed.

Lemma asks_parked s c : asks s c = issued c ++ parked_asks s c.
Proof. by destruct c. Qed.

Lemma step_asks s totalf total tid st st' :
  count_critical totalf < 2 ->
  settled s totalf st ->
  wire st ++ concat (map (parked_asks s) (tasks st)) ≡ₚ total ->
  step s tid st = Some st' ->
  wire st' ++ concat (map (parked_asks s) (tasks st')) ≡ₚ total.
Proof.
  intros Htot (Hstop & HI1 & Hperm) Hwire. unfold step.
  destruct (tasks st !! tid) as [c|] eqn:Hc; [|done].
  destruct (resume s c) as [c1|] eqn:Hres; [|done].
  assert (count_critical (findings (shared st) ++ contrib s c1) < 2)
    as Hlt.
  { rewrite (resume_contrib _ _ _ Hres), count_critical_app.
    pose proof (pending_lookup_le s _ _ _ Hc) as Hle.
    rewrite <- (count_critical_perm _ _ Hperm), count_critical_app in Htot.
    lia. }
  pose proof (run_sync_asks s c1 (shared st) Hstop HI1 Hlt) as Hasks.
  rewrite (resume_asks _ _ _ Hres), asks_parked in Hasks.
  destruct (run_sync c1 (shared st)) as [c2 g2]. simpl in *.
  intros [= <-]. simpl. rewrite <- Hwire.
  assert (map (parked_asks s) (tasks st) !! tid = Some (parked_asks s c))
    as Hl by (by rewrite list_lookup_fmap, Hc).
  pose proof (concat_insert_perm _ tid _ (parked_asks s c2) Hl) as Hins.
  rewrite <- list_fmap_insert in Hins.
  apply (Permutation_app_inv_r (parked_asks s c)).
  rewrite <- app_assoc, Hins, <- Hasks.
  generalize (wire st) (issued c2) (parked_asks s c2)
    (concat (map (parked_asks s) (tasks st))).
  intros l1 l2 l3 l4. solve_Permutation.
Qed.

Lemma exec_oracle_complete s totalf total sched : forall st st',
  count_critical totalf < 2 ->
  settled s totalf st ->
  wire st ++ concat (map (parked_asks s) (tasks st)) ≡ₚ total ->
  exec_oracle s sched st = Some st' ->
  settled s totalf st'
  /\ wire st' ++ concat (map (parked_asks s) (tasks st')) ≡ₚ total.
Proof.
  unfold exec_oracle.
  induction sched as [|tid sched IH]; simpl; intros st st' Htot Hset Hwire.
  - by intros [= <-].
  - destruct (step s tid st) as [st1|] eqn:Hstep; [|done].
    apply IH; [done| |].
    + by eapply step_settled.
    + by eapply step_asks.
Qed.

Lemma asks_idor_loop s base token ids :
  asks s (idor_loop base (bearer token) ids)
  = map (fun i => idor_request base token (pretty i)) ids.
Proof.
  induction ids as [|i ids IH]; simpl; [done|].
  unfold idor_request at 2. f_equal. by destruct (is_200 _).
Qed.

Lemma asks_single_probe s req f rest :
  asks s rest = [] ->
  parked_asks s
    (waf_guarded
       (If_stop_scan Return
          (Await_fetch req (fun o =>
             if is_200 o then Add_finding f rest else Return))))
  = [req].
Proof. intros Hrest. simpl. f_equal. by destruct (is_200 _). Qed.

Lemma scan_asks s base_url token :
  concat (map (parked_asks s) (tasks (scan base_url token)))
  = planned_requests base_url token.
Proof.
  rewrite scan_unfold. unfold termul_full_async, planned_requests.
  cbn [map app tasks concat].
  unfold check_exposed_route, check_missing_auth, check_privilege,
    check_workflow. cbn zeta.
  rewrite !asks_single_probe by done.
  change (parked_asks s (waf_guarded (check_idor ?b ?t)))
    with (asks s (idor_loop b (bearer t) (seq 1 5))).
  rewrite asks_idor_loop. cbn [map seq app]. done.
Qed.

Lemma pending_done_asks s ts :
  forallb is_return ts = true -> concat (map (parked_asks s) ts) = [].
Proof.
  induction ts as [|c ts IH]; simpl; [done|]. by destruct c.
Qed.

(** X11.  If what the tasks would record against a server holds fewer
    than two CRITICAL findings, the order of the tasks does not
    matter: every run to the end sends the whole battery of 14
    requests, records exactly those findings (in some order), and
    leaves the stop flag off. *)
Theorem below_threshold_every_run_is_complete :
  forall base_url token s sched st,
    count_critical (pending s (tasks (scan base_url token))) < 2 ->
    exec_oracle s sched (scan base_url token) = Some st ->
    all_done st = true ->
    findings (shared st) ≡ₚ pending s (tasks (scan base_url token))
    /\ wire st ≡ₚ planned_requests base_url token
    /\ stop_scan (shared st) = false.
Proof.
  intros base_url token s sched st Htot Hexec Hdone.
  assert (settled s (pending s (tasks (scan base_url token)))
            (scan base_url token)) as Hset
    by (rewrite scan_unfold; by repeat split).
  assert (wire (scan base_url token)
          ++ concat (map (parked_asks s) (tasks (scan base_url token)))
          ≡ₚ planned_requests base_url token) as Hwire
    by (rewrite scan_asks; by rewrite scan_unfold).
  destruct (exec_oracle_complete _ _ _ _ _ _ Htot Hset Hwire Hexec)
    as [Hset' Hwire'].
  destruct (settled_done _ _ _ Hset' Hdone) as (Hperm & _ & Hstop).
  unfold all_done in Hdone.
  rewrite (pending_done_asks _ _ Hdone), app_nil_r in Hwire'.
  done.
Qed.

Lemma below_threshold_every_run_is_complete_witness :
  match exec_oracle (t_example (fun _ => EmptyString)) in_order
          (scan "https://t.example" "X") with
  | Some st =>
      all_done st = true
      /\ findings (shared st)
         ≡ₚ pending (t_example (fun _ => EmptyString))
              (tasks (scan "https://t.example" "X"))
      /\ wire st ≡ₚ planned_requests "https://t.example" "X"
      /\ stop_scan (shared st) = false
  | None => False
  end.
Proof.
  destruct (exec_oracle (t_example (fun _ => EmptyString)) in_order
              (scan "https://t.example" "X")) as [st|] eqn:Hexec;
    [|vm_compute in Hexec; discriminate Hexec].
  pose proof Hexec as Hc. vm_compute in Hc. injection Hc as Hst.
  assert (all_done st = true) as Hdone by (rewrite <- Hst; reflexivity).
  split; [done|].
  refine (below_threshold_every_run_is_complete _ _ _ _ _ _ Hexec Hdone).
  vm_compute. lia.
Defined.

(** ** The risk summary of the report *)

Lemma risk_summary_snoc fs f :
  risk_summary (fs ++ [f]) = bump (risk f) (risk_summary fs).
Proof. unfold risk_summary. by rewrite foldl_app. Qed.

Lemma first_seen_snoc l x :
  first_seen (l ++ [x])
  = if decide (x ∈ l) then first_seen l else first_seen l ++ [x].
Proof.
  unfold first_seen. rewrite reverse_snoc. simpl.
  destruct (decide_rel elem_of x (reverse l)) as [Hin|Hnin];
    destruct (decide (x ∈ l)) as [Hin'|Hnin']; try done.
  - exfalso. apply Hnin'. by apply elem_of_reverse.
  - exfalso. apply Hnin. by apply elem_of_reverse.
  - by rewrite reverse_cons.
Qed.

Lemma elem_of_first_seen x l : x ∈ first_seen l <-> x ∈ l.
Proof.
  unfold first_seen.
  by rewrite elem_of_reverse, elem_of_remove_dups, elem_of_reverse.
Qed.

Lemma NoDup_first_seen l : NoDup (first_seen l).
Proof.
  unfold first_seen. rewrite reverse_Permutation. apply NoDup_remove_dups.
Qed.

Lemma bump_map (c : string -> Z) ks k :
  NoDup ks ->
  bump k (map (fun r => (r, c r)) ks)
  = if decide (k ∈ ks)
    then map (fun r => (r, if decide (r = k) then (c r + 1)%Z else c r)) ks
    else map (fun r => (r, c r)) ks ++ [(k, 1%Z)].
Proof.
  induction ks as [|r ks IH]; simpl; intros Hnd; [done|].
  apply NoDup_cons in Hnd as [Hr Hnd].
  destruct (String.eqb_spec r k) as [->|Hne].
  - rewrite decide_True by apply list_elem_of_here.
    rewrite decide_True by done. f_equal.
    apply map_ext_in. intros r Hin. rewrite decide_False; [done|].
    intros ->. by apply Hr, list_elem_of_In.
  - rewrite (IH Hnd).
    destruct (decide (k ∈ ks)) as [Hin|Hnin].
    + rewrite decide_True by by apply list_elem_of_further.
      by rewrite decide_False.
    + rewrite decide_False; [done|].
      intros [?|?]%elem_of_cons; done.
Qed.

Lemma count_risk_snoc r fs f :
  count_risk r (fs ++ [f])
  = count_risk r fs + (if decide (risk f = r) then 1 else 0).
Proof.
  unfold count_risk. rewrite filter_app, length_app, filter_cons, filter_nil.
  by destruct (decide (risk f = r)).
Qed.

Lemma count_risk_absent r fs : r ∉ map risk fs -> count_risk r fs = 0.
Proof.
  unfold count_risk. induction fs as [|f fs IH]; simpl; [done|].
  intros Hnin. apply not_elem_of_cons in Hnin as [Hne Hnin].
  rewrite filter_cons, decide_False by done. by apply IH.
Qed.

Lemma risk_summary_closed_form fs :
  risk_summary fs
  = map (fun r => (r, Z.of_nat (count_risk r fs)))
      (first_seen (map risk fs)).
Proof.
  induction fs as [|f fs IH] using rev_ind; [done|].
  rewrite risk_summary_snoc, IH, map_app. cbn [map].
  rewrite first_seen_snoc, (bump_map _ _ _ (NoDup_first_seen _)).
  destruct (decide (risk f ∈ map risk fs)) as [Hin|Hnin].
  - rewrite decide_True by by apply elem_of_first_seen.
    apply map_ext_in. intros r _. rewrite count_risk_snoc.
    destruct (decide (r = risk f)) as [->|Hne].
    + rewrite decide_True by done. f_equal. lia.
    + rewrite decide_False by done. f_equal. lia.
  - rewrite decide_False by by rewrite elem_of_first_seen.
    rewrite map_app. cbn [map]. f_equal.
    + apply map_ext_in. intros r Hr%list_elem_of_In.
      apply (proj1 (elem_of_first_seen _ _)) in Hr.
      rewrite count_risk_snoc, decide_False; [f_equal; lia|].
      intros Heq. apply Hnin. by rewrite Heq.
    + rewrite count_risk_snoc, decide_True, (count_risk_absent _ _ Hnin);
        done.
Qed.

(** X12.  The risk summary of the report has one entry per risk that
    occurs among the findings, in the order in which the risks first
    occur, and each entry shows how many findings have that risk (so
    no entry shows 0 and no risk has two entries). *)
Theorem risk_summary_counts_by_first_occurrence :
  forall fs,
    risk_summary fs
    = map (fun r => (r, Z.of_nat (count_risk r fs)))
        (first_seen (map risk fs))
    /\ NoDup (map fst (risk_summary fs))
    /\ forall r v, (r, v) ∈ risk_summary fs -> (0 < v)%Z.
Proof.
  intros fs. rewrite risk_summary_closed_form. repeat split.
  - rewrite map_map. simpl. rewrite map_id. apply NoDup_first_seen.
  - intros r v (r' & [= -> ->] & Hr)%list_elem_of_fmap.
    apply (proj1 (elem_of_first_seen _ _)) in Hr.
    apply list_elem_of_fmap in Hr as (f & -> & Hf).
    assert (0 < count_risk (risk f) fs); [|lia].
    unfold count_risk.
    assert (f ∈ filter (fun f' => risk f' = risk f) fs) as Hin
      by by apply list_elem_of_filter.
    destruct (filter _ fs); [by apply elem_of_nil in Hin|simpl; lia].
Qed.

Lemma scan_findings_classified base_url token evs st :
  exec evs (scan base_url token) = Some st ->
  Forall classified (findings (shared st)).
Proof.
  intros Hexec.
  assert (Forall (finding_traced (map url (wire st))) (findings (shared st)))
    as Hfs.
  { eapply (exec_traced _ _ _ (scan_traced _ _ _) _ Hexec). }
  eapply Forall_impl; [done|]. by intros f [? _].
Unshelve.
  rewrite scan_unfold. constructor.
Qed.

Lemma count_risk_present r fs : 0 < count_risk r fs -> r ∈ map risk fs.
Proof.
  intros Hpos. destruct (decide (r ∈ map risk fs)) as [|Hnin]; [done|].
  rewrite (count_risk_absent _ _ Hnin) in Hpos. lia.
Qed.

Lemma classified_risk f :
  classified f -> risk f = "HIGH" \/ risk f = "CRITICAL".
Proof.
  unfold classified, risk_of.
  repeat (destruct (String.eqb (type f) _); [intros [= <-]; auto|]).
  done.
Qed.

(** X13.  For every state of a scan the risk summary of the report
    has at most the two entries HIGH and CRITICAL; its CRITICAL entry
    shows [critical_count]; and the stop flag is up exactly when that
    entry is there and shows at least 2. *)
Theorem scan_summary_agrees_with_counter :
  forall base_url token evs st,
    exec evs (scan base_url token) = Some st ->
    (forall r v, (r, v) ∈ risk_summary (findings (shared st)) ->
       r = "HIGH" \/ r = "CRITICAL")
    /\ length (risk_summary (findings (shared st))) <= 2
    /\ (forall v, ("CRITICAL", v) ∈ risk_summary (findings (shared st)) ->
          v = critical_count (shared st))
    /\ (stop_scan (shared st) = true
        <-> exists v, ("CRITICAL", v) ∈ risk_summary (findings (shared st))
                      /\ (2 <= v)%Z).
Proof.
  intros base_url token evs st Hexec.
  destruct (scan_sane _ _ _ _ Hexec) as (HI1 & HI3 & _).
  pose proof (scan_findings_classified _ _ _ _ Hexec) as Hcl.
  unfold I1, I3, CRITICAL_STOP_THRESHOLD in HI1, HI3.
  rewrite risk_summary_closed_form.
  set (fs := findings (shared st)) in *.
  assert (forall r, r ∈ first_seen (map risk fs) ->
            r = "HIGH" \/ r = "CRITICAL") as Hkeys.
  { intros r Hr. apply (proj1 (elem_of_first_seen _ _)) in Hr.
    apply list_elem_of_fmap in Hr as (f & -> & Hf).
    apply classified_risk. by apply (proj1 (Forall_forall _ _) Hcl). }
  assert (forall v, ("CRITICAL", v)
                    ∈ map (fun r => (r, Z.of_nat (count_risk r fs)))
                        (first_seen (map risk fs)) ->
            v = critical_count (shared st)) as Hcrit.
  { intros v (r & [= <- ->] & _)%list_elem_of_fmap. by rewrite HI1. }
  repeat split.
  - intros r v (r' & [= -> ->] & Hr)%list_elem_of_fmap. by apply Hkeys.
  - rewrite length_map.
    apply (submseteq_length _ ["HIGH"; "CRITICAL"]).
    apply NoDup_submseteq; [apply NoDup_first_seen|].
    intros r [->| ->]%Hkeys; [apply list_elem_of_here|].
    apply list_elem_of_further, list_elem_of_here.
  - done.
  - intros Hstop. exists (critical_count (shared st)).
    rewrite Hstop in HI3.
    symmetry in HI3. apply Z.leb_le in HI3. split; [|done].
    apply list_elem_of_fmap. exists "CRITICAL". split; [by rewrite HI1|].
    apply elem_of_first_seen, count_risk_present.
    change (count_risk "CRITICAL" fs) with (count_critical fs). lia.
  - intros (v & Hv & Hle). rewrite (Hcrit v Hv) in Hle.
    rewrite HI3. by apply Z.leb_le.
Qed.

Lemma scan_summary_agrees_with_counter_witness :
  match exec_oracle wide_open (seq 0 10 ++ seq 0 10) main_scan with
  | Some st =>
      length (risk_summary (findings (shared st))) <= 2
      /\ (forall v, ("CRITICAL", v) ∈ risk_summary (findings (shared st)) ->
            v = critical_count (shared st))
  | None => False
  end.
Proof.
  destruct (exec_oracle wide_open (seq 0 10 ++ seq 0 10) main_scan)
    as [st|] eqn:Hexec.
  - destruct (scan_summary_agrees_with_counter _ _ _ _ Hexec)
      as (_ & Hlen & Hcrit & _).
    exact (conj Hlen Hcrit).
  - vm_compute in Hexec. discriminate Hexec.
Defined.

(** ** The pacing delay *)

Lemma idor_loop_never_sleeps base hdrs ids :
  never_sleeps (idor_loop base hdrs ids).
Proof.
  induction ids as [|i ids IH]; simpl; [done|]. split; [done|].
  intros o. by destruct (is_200 o).
Qed.

Lemma gather_waf_guarded cs : forall st,
  foldl spawn st (map waf_guarded cs)
  = {| shared := shared st;
       tasks := tasks st ++ map waf_guarded cs;
       wire := wire st |}.
Proof.
  induction cs as [|c cs IH]; intros st; simpl.
  - rewrite app_nil_r. by destruct st.
  - rewrite IH. unfold spawn. simpl. by rewrite app_nil_r, <- app_assoc.
Qed.

(** X14.  The pacing delay is paid once per task and before anything
    else: gathering tasks wrapped in [waf_guarded] sends nothing and
    leaves the globals alone, every task being asleep; and no check
    sleeps again afterwards, so the five requests of the IDOR loop
    follow each other without a further delay. *)
Theorem pacing_once_per_task :
  (forall cs g,
     gather (map waf_guarded cs) g
     = {| shared := g; tasks := map waf_guarded cs; wire := [] |})
  /\ (forall c, is_check c -> never_sleeps c).
Proof.
  split.
  - intros cs g. unfold gather. by rewrite gather_waf_guarded.
  - intros c [];
      first [apply (idor_loop_never_sleeps _ _ (seq 1 5))
            |simpl; split; [done|]; intros o; by destruct (is_200 o)].
Qed.

(** ** Which findings a scan can make *)

Lemma adds_within_mono c : forall plan plan',
  plan ⊆+ plan' -> adds_within c plan -> adds_within c plan'.
Proof.
  induction c as [|d k IH|req k IH|a IHa b IHb|f k IH|x y k IH];
    simpl; intros plan plan' Hsub Hc; try done; eauto.
  - destruct Hc. split; eauto.
  - destruct Hc as (p & Hp & Hk). exists p. split; [by etrans|done].
Qed.

Lemma run_sync_adds c : forall g plan,
  adds_within c plan ->
  exists plan', adds_within (run_sync c g).1 plan'
                /\ findings (run_sync c g).2 ++ plan' ⊆+ findings g ++ plan.
Proof.
  induction c as [|d k IH|req k IH|a IHa b IHb|f k IH|x y k IH];
    simpl; intros g plan Hc.
  - by exists plan.
  - by exists plan.
  - by exists plan.
  - destruct Hc. destruct (stop_scan g); auto.
  - destruct Hc as (p & Hp & Hk).
    destruct (IH (add_finding f g) p Hk) as (p' & Hp' & Hsub).
    exists p'. split; [done|]. etrans; [done|].
    simpl. rewrite <- app_assoc. by apply submseteq_skips_l.
  - by apply (IH (correlate x y g)).
Qed.

Lemma resume_adds s c c1 plan :
  adds_within c plan -> resume s c = Some c1 -> adds_within c1 plan.
Proof. destruct c; simpl; try done; intros Hc [= <-]; auto. Qed.

Lemma concat_lookup_perm {A} (ls : list (list A)) : forall i l,
  ls !! i = Some l ->
  exists rest, concat ls ≡ₚ l ++ rest
               /\ forall l', concat (<[i := l']> ls) ≡ₚ l' ++ rest.
Proof.
  induction ls as [|a ls IH]; intros [|i] l Hi; simpl in Hi; simplify_eq.
  - by exists (concat ls).
  - destruct (IH i l Hi) as (rest & Hrest & Hins).
    exists (a ++ rest). simpl. split.
    + rewrite Hrest. generalize a l rest. intros l1 l2 l3. solve_Permutation.
    + intros l'. rewrite (Hins l').
      generalize a l' rest. intros l1 l2 l3. solve_Permutation.
Qed.

Lemma step_adds total s tid st st' :
  (exists plans, Forall2 adds_within (tasks st) plans
                 /\ findings (shared st) ++ concat plans ⊆+ total) ->
  step s tid st = Some st' ->
  exists plans, Forall2 adds_within (tasks st') plans
                /\ findings (shared st') ++ concat plans ⊆+ total.
Proof.
  intros (plans & Hall & Hsub). unfold step.
  destruct (tasks st !! tid) as [c|] eqn:Hc; [|done].
  destruct (resume s c) as [c1|] eqn:Hres; [|done].
  destruct (Forall2_lookup_l _ _ _ _ _ Hall Hc) as (plan & Hplan & Hwithin).
  destruct (run_sync_adds c1 (shared st) plan
              (resume_adds _ _ _ _ Hwithin Hres)) as (plan' & Hc2 & Hfs).
  destruct (run_sync c1 (shared st)) as [c2 g2]. simpl in *.
  intros [= <-]. simpl.
  exists (<[tid := plan']> plans). split; [by apply Forall2_insert|].
  destruct (concat_lookup_perm plans tid plan Hplan) as (rest & Hrest & Hins).
  etrans; [|done]. rewrite (Hins plan'), Hrest, !app_assoc.
  by apply submseteq_skips_r.
Qed.

Lemma exec_adds total evs : forall st st',
  (exists plans, Forall2 adds_within (tasks st) plans
                 /\ findings (shared st) ++ concat plans ⊆+ total) ->
  exec evs st = Some st' ->
  findings (shared st') ⊆+ total.
Proof.
  induction evs as [|[tid s] evs IH]; simpl; intros st st' Hst.
  - intros [= <-]. destruct Hst as (plans & _ & Hsub).
    etrans; [|done]. by apply submseteq_inserts_r.
  - destruct (step s tid st) as [st1|] eqn:Hstep; [|done].
    apply IH. by eapply step_adds.
Qed.

Lemma idor_loop_adds base hdrs ids :
  adds_within (idor_loop base hdrs ids)
    (map (fun i => idor_finding base (pretty i)) ids).
Proof.
  induction ids as [|i ids IH]; simpl; [done|]. split; [done|].
  intros o. destruct (is_200 o).
  - eexists. split; [done|]. apply IH.
  - eapply adds_within_mono; [|apply IH]. by apply submseteq_cons.
Qed.

Lemma single_probe_adds req f rest :
  adds_within rest [] ->
  adds_within
    (waf_guarded
       (If_stop_scan Return
          (Await_fetch req (fun o =>
             if is_200 o then Add_finding f rest else Return))))
    [f].
Proof.
  intros Hrest. split; [done|]. intros o. destruct (is_200 o); [|done].
  by exists [].
Qed.

Lemma scan_adds base_url token :
  exists plans,
    Forall2 adds_within (tasks (scan base_url token)) plans
    /\ findings (shared (scan base_url token)) ++ concat plans
       ⊆+ possible_findings base_url token.
Proof.
  rewrite scan_unfold. unfold termul_full_async, possible_findings.
  cbn [map app tasks shared findings initial_globals].
  eexists [_; _; _; _; _; _; _; _; _; _]. split.
  - repeat (constructor;
      [first [by apply single_probe_adds
             |apply (idor_loop_adds _ _ (seq 1 5))]|]).
    constructor.
  - cbn [concat app map seq]. done.
Qed.

Lemma filter_submseteq {A} (P : A -> Prop) `{!forall x, Decision (P x)}
    (l k : list A) :
  l ⊆+ k -> filter P l ⊆+ filter P k.
Proof.
  induction 1 as [|x l k _ IH|x y l|x l k _ IH|l k m _ IH1 _ IH2];
    rewrite ?filter_cons; repeat case_decide; try done.
  - by constructor.
  - by apply submseteq_swap.
  - by constructor.
  - by etrans.
Qed.

Lemma length_filter_split (t : string) (fs : list finding) :
  length fs
  = count_type t fs + length (filter (fun f => type f <> t) fs).
Proof.
  unfold count_type. rewrite <- length_app.
  apply Permutation_length. symmetry.
  apply (filter_app_complement (fun f => type f = t)).
Qed.

(** X15.  The findings of a scan are a sub-multiset of the 14 findings
    its checks can make: each possible finding is recorded at most
    once and nothing else ever is.  Since at most two of the five IDOR
    findings get in, a scan never has more than 11 findings, and
    against a server that answers 200 to everything the run in which
    the IDOR answers come first reaches 11. *)
Theorem scan_records_at_most_11_findings :
  forall base_url token,
    (forall evs st,
       exec evs (scan base_url token) = Some st ->
       findings (shared st) ⊆+ possible_findings base_url token
       /\ length (findings (shared st)) <= 11)
    /\ exists st,
         exec_oracle wide_open idor_first (scan base_url token) = Some st
         /\ all_done st = true
         /\ length (findings (shared st)) = 11.
Proof.
  intros base_url token. split.
  - intros evs st Hexec.
    pose proof (exec_adds _ _ _ _ (scan_adds base_url token) Hexec) as Hsub.
    split; [done|].
    assert (count_type "IDOR" (findings (shared st)) <= 2) as Hidor.
    { eapply (exec_idor_invariant base_url token evs [] _ _ eq_refl
                (scan_idor_invariant _ _) Hexec). }
    rewrite (length_filter_split "IDOR").
    pose proof (submseteq_length _ _
                  (filter_submseteq (fun f => type f <> "IDOR") _ _ Hsub))
      as Hothers.
    assert (length (filter (fun f => type f <> "IDOR")
                      (possible_findings base_url token)) = 9) as H9
      by reflexivity.
    lia.
  - eexists. split; [vm_compute; reflexivity|]. split; reflexivity.
Qed.

(** ** What a turn does to the findings *)

Lemma run_sync_due c : forall hit g,
  due hit c ->
  (exists added,
     findings (run_sync c g).2 = findings g ++ added
     /\ length added = if hit then 1 else 0)
  /\ due false (run_sync c g).1.
Proof.
  induction c as [|d k IH|req k IH|a IHa b IHb|f k IH|x y k IH];
    simpl; intros hit g Hc.
  - subst hit. split; [|done]. exists []. by rewrite app_nil_r.
  - destruct Hc as [-> Hk]. split; [|done]. exists []. by rewrite app_nil_r.
  - destruct Hc as [-> Hk]. split; [|done]. exists []. by rewrite app_nil_r.
  - destruct Hc. destruct (stop_scan g); auto.
  - destruct Hc as [-> Hk].
    destruct (IH false (add_finding f g) Hk) as [(added & Hf & Hlen) Hdue].
    split; [|done]. exists (f :: added). split.
    + rewrite Hf. simpl. by rewrite <- app_assoc.
    + simpl. by rewrite Hlen.
  - by apply (IH hit (correlate x y g)).
Qed.

Lemma step_due s tid st st' :
  Forall (due false) (tasks st) -> step s tid st = Some st' ->
  Forall (due false) (tasks st')
  /\ exists added,
       findings (shared st') = findings (shared st) ++ added
       /\ length added
          = match tasks st !! tid with
            | Some (Await_fetch req _) =>
                if is_200 (fetched s req) then 1 else 0
            | _ => 0
            end.
Proof.
  intros Hall. unfold step.
  destruct (tasks st !! tid) as [c|] eqn:Hc; [|done].
  destruct (resume s c) as [c1|] eqn:Hres; [|done].
  pose proof (Forall_lookup_1 _ _ _ _ Hall Hc) as Hdue.
  assert (due match c with
              | Await_fetch req _ => is_200 (fetched s req)
              | _ => false
              end c1) as Hc1.
  { destruct c; simpl in Hres, Hdue; simplify_eq.
    - by destruct Hdue.
    - destruct Hdue as [_ Hk]. apply Hk. }
  destruct (run_sync_due c1 _ (shared st) Hc1) as [(added & Hf & Hlen) Hc2].
  destruct (run_sync c1 (shared st)) as [c2 g2]. simpl in *.
  intros [= <-]. simpl. split; [by apply Forall_insert|].
  exists added. split; [done|]. rewrite Hlen. by destruct c.
Qed.

Lemma exec_due evs : forall st st',
  Forall (due false) (tasks st) -> exec evs st = Some st' ->
  Forall (due false) (tasks st').
Proof.
  induction evs as [|[tid s] evs IH]; simpl; intros st st' Hall.
  - by intros [= <-].
  - destruct (step s tid st) as [st1|] eqn:Hstep; [|done].
    destruct (step_due _ _ _ _ Hall Hstep). eauto.
Qed.

Lemma idor_loop_due base hdrs ids : due false (idor_loop base hdrs ids).
Proof.
  induction ids as [|i ids IH]; simpl; [done|]. split; [done|].
  split; [done|]. intros o. by destruct (is_200 o).
Qed.

Lemma single_probe_due req f rest :
  due false rest ->
  due false
    (waf_guarded
       (If_stop_scan Return
          (Await_fetch req (fun o =>
             if is_200 o then Add_finding f rest else Return)))).
Proof.
  intros Hrest. repeat split. intros o. by destruct (is_200 o).
Qed.

Lemma scan_due base_url token :
  Forall (due false) (tasks (scan base_url token)).
Proof.
  rewrite scan_unfold. unfold termul_full_async.
  cbn [map app tasks].
  repeat (constructor;
    [first [by apply single_probe_due
           |split; [done|]; apply (idor_loop_due _ _ (seq 1 5))]|]).
  constructor.
Qed.

(** X16.  In a scan a turn changes the findings only when it delivers
    a positive answer to a request in flight, and then it appends
    exactly one finding; a wake-up or a negative answer appends none.
    The stop flag plays no part in this: an answer that arrives after
    the flag went up is recorded all the same. *)
Theorem every_positive_answer_is_recorded :
  forall base_url token evs st s tid st',
    exec evs (scan base_url token) = Some st ->
    step s tid st = Some st' ->
    exists added,
      findings (shared st') = findings (shared st) ++ added
      /\ length added
         = match tasks st !! tid with
           | Some (Await_fetch req _) =>
               if is_200 (fetched s req) then 1 else 0
           | _ => 0
           end.
Proof.
  intros base_url token evs st s tid st' Hexec Hstep.
  pose proof (exec_due _ _ _ (scan_due base_url token) Hexec) as Hall.
  by destruct (step_due _ _ _ _ Hall Hstep).
Qed.

Lemma every_positive_answer_is_recorded_witness :
  match exec_oracle wide_open (seq 0 10 ++ [4; 5]) main_scan with
  | Some st =>
      stop_scan (shared st) = true
      /\ match step wide_open 0 st with
         | Some st' =>
             exists added,
               findings (shared st') = findings (shared st) ++ added
               /\ length added
                  = match tasks st !! 0 with
                    | Some (Await_fetch req _) =>
                        if is_200 (fetched wide_open req) then 1 else 0
                    | _ => 0
                    end
         | None => False
         end
  | None => False
  end.
Proof.
  destruct (exec_oracle wide_open (seq 0 10 ++ [4; 5]) main_scan)
    as [st|] eqn:Hexec; [|vm_compute in Hexec; discriminate Hexec].
  pose proof Hexec as Hc. vm_compute in Hc. injection Hc as Hst.
  split; [rewrite <- Hst; reflexivity|].
  destruct (step wide_open 0 st) as [st'|] eqn:Hstep.
  - exact (every_positive_answer_is_recorded _ _ _ _ _ _ _ Hexec Hstep).
  - rewrite <- Hst in Hstep. vm_compute in Hstep. discriminate Hstep.
Defined.

(** ** Globals that are not reset *)

Lemma gather_unfold base_url token g :
  gather (termul_full_async base_url token) g
  = {| shared := g; tasks := termul_full_async base_url token; wire := [] |}.
Proof. reflexivity. Qed.

Lemma step_idle s tid st st' :
  stop_scan (shared st) = true ->
  Forall idle (tasks st) -> step s tid st = Some st' ->
  shared st' = shared st /\ wire st' = wire st /\ Forall idle (tasks st').
Proof.
  intros Hstop Hall. unfold step.
  destruct (tasks st !! tid) as [c|] eqn:Hc; [|done].
  destruct (Forall_lookup_1 _ _ _ _ Hall Hc) as [->|(check & -> & Hcheck)];
    [done|].
  cbn [resume waf_guarded]. rewrite (check_stopped _ _ Hcheck Hstop).
  intros [= <-]. simpl. rewrite app_nil_r. repeat split.
  apply Forall_insert; [done|by left].
Qed.

Lemma exec_idle evs : forall st st',
  stop_scan (shared st) = true ->
  Forall idle (tasks st) -> exec evs st = Some st' ->
  shared st' = shared st /\ wire st' = wire st.
Proof.
  induction evs as [|[tid s] evs IH]; simpl; intros st st' Hstop Hall.
  - by intros [= <-].
  - destruct (step s tid st) as [st1|] eqn:Hstep; [|done]. intros Hexec.
    destruct (step_idle _ _ _ _ Hstop Hall Hstep) as (Hg & Hw & Hall1).
    rewrite <- Hg, <- Hw. apply IH; [by rewrite Hg|done|done].
Qed.

Lemma termul_full_async_idle base_url token :
  Forall idle (termul_full_async base_url token).
Proof.
  unfold termul_full_async. cbn [map app].
  repeat (constructor; [right; eexists; split; [done|constructor]|]).
  constructor.
Qed.

(** X17.  The globals are module state that nothing resets.  A scan
    that starts while the stop flag is still up from an earlier scan
    probes nothing at all: whatever the schedule, it sends no request
    and leaves the globals exactly as it found them. *)
Theorem scan_on_stopped_globals_does_nothing :
  forall g base_url token evs st,
    stop_scan g = true ->
    exec evs (gather (termul_full_async base_url token) g) = Some st ->
    wire st = [] /\ shared st = g.
Proof.
  intros g base_url token evs st Hstop Hexec.
  rewrite gather_unfold in Hexec.
  destruct (exec_idle evs
              {| shared := g; tasks := termul_full_async base_url token;
                 wire := [] |}
              st Hstop (termul_full_async_idle _ _) Hexec)
    as [Hg Hw].
  by split.
Qed.

Lemma scan_on_stopped_globals_does_nothing_witness :
  match exec_oracle wide_open (seq 0 10)
          (gather (termul_full_async TARGET USER_TOKEN)
             (record_all [critical_probe; critical_probe])) with
  | Some st =>
      all_done st = true
      /\ wire st = []
      /\ shared st = record_all [critical_probe; critical_probe]
  | None => False
  end.
Proof.
  destruct (exec_oracle wide_open (seq 0 10)
              (gather (termul_full_async TARGET USER_TOKEN)
                 (record_all [critical_probe; critical_probe])))
    as [st|] eqn:Hexec; [|vm_compute in Hexec; discriminate Hexec].
  pose proof Hexec as Hc. vm_compute in Hc. injection Hc as Hst.
  split; [rewrite <- Hst; reflexivity|].
  exact (scan_on_stopped_globals_does_nothing
           (record_all [critical_probe; critical_probe])
           TARGET USER_TOKEN _ st eq_refl Hexec).
Defined.
